(** * PrimeVue documentation server: the query engine of [src/server.mjs]

    A shallow embedding of the in-memory document store and of the four
    request handlers registered by [PrimeVueServer.setupServer]:
    the [primevue-docs] resource and the tools [search_primevue_docs],
    [get_component_api] and [list_categories].

    JavaScript strings are modelled by [string]: a sequence of 8-bit code
    units, i.e. the Latin-1 range of UTF-16.  On that range every string
    primitive used by the server ([toLowerCase], [includes], [indexOf],
    [substring], [split], [join], [replace], the default [sort] order) is
    modelled exactly.  [localeCompare], whose order is fixed by the host
    locale and not by the program, is a parameter of the development. *)

From Stdlib Require Import ZArith List Bool Ascii String Permutation Sorted Lia.
From Stdlib Require Import DecimalString.
Import ListNotations.

Local Open Scope string_scope.
Local Open Scope list_scope.
Local Open Scope Z_scope.

(** ** String primitives *)

Module JsString.

Definition nl : string := String "010"%char EmptyString.
Definition dquote : string := String "034"%char EmptyString.

(** [String.prototype.toLowerCase] on one code unit below 256:
    A-Z and the upper-case letters of Latin-1 (U+00C0..U+00DE without the
    multiplication sign U+00D7) move up by 32. *)
Definition lowerChar (c : ascii) : ascii :=
  let n := N_of_ascii c in
  if ((65 <=? n) && (n <=? 90) ||
      (192 <=? n) && (n <=? 222) && negb (n =? 215))%N
  then ascii_of_N (n + 32) else c.

Fixpoint toLowerCase (s : string) : string :=
  match s with
  | EmptyString => EmptyString
  | String c s' => String (lowerChar c) (toLowerCase s')
  end.

(** [s.indexOf(pat)]: position of the first occurrence, or -1. *)
Fixpoint indexOf_from (pat s : string) (i : Z) : Z :=
  if prefix pat s then i
  else match s with
       | EmptyString => -1
       | String _ s' => indexOf_from pat s' (i + 1)
       end.

Definition indexOf (s pat : string) : Z := indexOf_from pat s 0.

(** [s.includes(pat)] *)
Definition includes (s pat : string) : bool := negb (indexOf s pat =? -1).

Fixpoint drop (n : nat) (s : string) : string :=
  match n, s with
  | O, _ => s
  | S _, EmptyString => EmptyString
  | S n', String _ s' => drop n' s'
  end.

Fixpoint take (n : nat) (s : string) : string :=
  match n, s with
  | O, _ => EmptyString
  | S _, EmptyString => EmptyString
  | S n', String c s' => String c (take n' s')
  end.

(** [s.substring(start)]: a negative start counts as 0, a start past the
    end gives the empty string. *)
Definition substring (s : string) (start : Z) : string :=
  drop (Z.to_nat (Z.max 0 start)) s.

(** [s.split(sep)] for a separator of one code unit; the result is never
    empty. *)
Fixpoint split (sep : ascii) (s : string) : list string :=
  match s with
  | EmptyString => [EmptyString]
  | String c s' =>
      if Ascii.eqb c sep then EmptyString :: split sep s'
      else match split sep s' with
           | [] => [String c EmptyString]
           | hd :: tl => String c hd :: tl
           end
  end.

(** [arr.join(sep)] on an array of strings. *)
Fixpoint join (sep : string) (l : list string) : string :=
  match l with
  | [] => EmptyString
  | [x] => x
  | x :: rest => x ++ sep ++ join sep rest
  end.

(** [s.replace(pat, rep)] with a string pattern: the first occurrence
    only. *)
Definition replace (s pat rep : string) : string :=
  let i := indexOf s pat in
  if i =? -1 then s
  else take (Z.to_nat i) s ++ rep ++ drop (Z.to_nat i + String.length pat) s.

(** Template-literal conversion of an array length. *)
Definition Number_toString (n : nat) : string :=
  NilEmpty.string_of_uint (Nat.to_uint n).

(** Default comparison of [Array.prototype.sort] on strings: code-unit
    order. *)
Definition codeUnitCompare (a b : string) : Z :=
  match String.compare a b with
  | Lt => -1
  | Eq => 0
  | Gt => 1
  end.

(** The values [a[0] || fallback] tests: only the empty string is falsy. *)
Definition or_else (s fallback : string) : string :=
  if String.eqb s EmptyString then fallback else s.

End JsString.
Import JsString.

(** ** Arrays *)

Section ArraySort.
Context {A : Type} (cmp : A -> A -> Z).

(** [Array.prototype.sort(cmp)] is stable.  For a consistent comparator
    the result is the one stable ordering, computed here by insertion:
    an element goes in front of the first later element that it does not
    exceed. *)
Fixpoint sort_insert (x : A) (l : list A) : list A :=
  match l with
  | [] => [x]
  | y :: l' => if cmp x y <=? 0 then x :: l else y :: sort_insert x l'
  end.

Fixpoint Array_sort (l : list A) : list A :=
  match l with
  | [] => []
  | x :: l' => sort_insert x (Array_sort l')
  end.
End ArraySort.

(** ** [Map<string, V>]: keys in insertion order *)

Section JsMap.
Context {V : Type}.

Definition JsMap := list (string * V).

Fixpoint Map_get (m : JsMap) (k : string) : option V :=
  match m with
  | [] => None
  | (k', v) :: m' => if String.eqb k' k then Some v else Map_get m' k
  end.

Definition Map_has (m : JsMap) (k : string) : bool :=
  match Map_get m k with Some _ => true | None => false end.

(** [m.set(k, v)]: a present key keeps its place, a new key goes last. *)
Fixpoint Map_set (m : JsMap) (k : string) (v : V) : JsMap :=
  match m with
  | [] => [(k, v)]
  | (k', v') :: m' =>
      if String.eqb k' k then (k, v) :: m' else (k', v') :: Map_set m' k v
  end.
End JsMap.
Arguments JsMap : clear implicits.

(** ** A plain object [{}] used as a dictionary of string arrays *)

Module JsObject.

(** Own properties, in creation order. *)
Definition t := list (string * list string).

(** [{}] *)
Definition empty : t := [].

(** Every property name that [{}] inherits from [Object.prototype]; each
    holds a function, or for [__proto__] the prototype object itself. *)
Definition Object_prototype_keys : list string :=
  [ "constructor"; "hasOwnProperty"; "isPrototypeOf";
    "propertyIsEnumerable"; "toLocaleString"; "toString"; "valueOf";
    "__proto__"; "__defineGetter__"; "__defineSetter__";
    "__lookupGetter__"; "__lookupSetter__" ].

Inductive lookup : Type :=
| Own (arr : list string)
| Inherited
| Undefined.

(** [o[k]] *)
Definition get (o : t) (k : string) : lookup :=
  match Map_get o k with
  | Some arr => Own arr
  | None => if existsb (String.eqb k) Object_prototype_keys
            then Inherited else Undefined
  end.

(** Arrays and inherited functions are truthy, [undefined] is not. *)
Definition truthy (v : lookup) : bool :=
  match v with Undefined => false | _ => true end.

Definition digit (c : ascii) : option N :=
  let n := N_of_ascii c in
  if ((48 <=? n) && (n <=? 57))%N then Some (n - 48)%N else None.

Fixpoint parse_digits (s : string) (acc : N) : option N :=
  match s with
  | EmptyString => Some acc
  | String c s' =>
      match digit c with
      | Some d => parse_digits s' (10 * acc + d)%N
      | None => None
      end
  end.

(** A property key is an array index when it is the canonical decimal
    form of an integer in [0, 2^32 - 2]. *)
Definition array_index (k : string) : option N :=
  match k with
  | EmptyString => None
  | String c rest =>
      if Ascii.eqb c "0"%char && negb (String.eqb rest EmptyString) then None
      else match parse_digits k 0 with
           | Some n => if (n <=? 4294967294)%N then Some n else None
           | None => None
           end
  end.

Definition is_index (k : string) : bool :=
  match array_index k with Some _ => true | None => false end.

Definition index_value (k : string) : Z :=
  match array_index k with Some n => Z.of_N n | None => 0 end.

(** [Object.entries(o)]: array-index keys first, in ascending numeric
    order, then the other keys in creation order. *)
Definition entries (o : t) : list (string * list string) :=
  Array_sort (fun a b => index_value (fst a) - index_value (fst b))
             (filter (fun kv => is_index (fst kv)) o)
  ++ filter (fun kv => negb (is_index (fst kv))) o.

End JsObject.

(** ** Data model *)

Record DocContent := { type : string; value : string }.

Record DocMetadata :=
  { source : string; file : string; created : string; updated : string }.

Record PrimeVueDoc :=
  { schema : string;
    id : string;
    title : string;
    tags : list string;
    content : DocContent;
    metadata : DocMetadata }.

(** [this.docs] *)
Definition DocStore := JsMap PrimeVueDoc.

(** [loadDocsRecursive], seen from the store: every file that parsed, in
    traversal order, is entered under its own [id]. *)
Definition loadDocs (parsed : list PrimeVueDoc) : DocStore :=
  fold_left (fun docs doc => Map_set docs (id doc) doc) parsed [].

Inductive JsError : Type :=
| Error (message : string)
| TypeError.

Inductive Completion (A : Type) : Type :=
| Return (a : A)
| Throw (e : JsError).
Arguments Return {A} a.
Arguments Throw {A} e.

Module Tool.
(** [{ content: [{ type: 'text', text }] }] *)
Record block := { type : string; text : string }.
Record result := { content : list block }.
Definition reply (s : string) : result :=
  {| content := [ {| type := "text"; text := s |} ] |}.
End Tool.

Module Resource.
(** [{ contents: [{ uri, mimeType, text }] }] *)
Record item := { uri : string; mimeType : string; text : string }.
Record result := { contents : list item }.
End Resource.

Module ResultEntry.
Record t :=
  { component : string;
    category : string;
    id : string;
    snippet : string;
    uri : string;
    tags : list string }.
End ResultEntry.

(** An optional string argument is truthy when present and not empty. *)
Definition supplied (arg : option string) : option string :=
  match arg with
  | Some s => if String.eqb s EmptyString then None else Some s
  | None => None
  end.

(** [doc.metadata.file.split('/')[0]] *)
Definition first_segment (doc : PrimeVueDoc) : string :=
  hd EmptyString (split "/" (file (metadata doc))).

(** [doc.metadata.file.split('/')[0] || 'Unknown'] *)
Definition category_of (doc : PrimeVueDoc) : string :=
  or_else (first_segment doc) "Unknown".

(** ** The [primevue-docs] resource *)

(** The read callback registered with the template: [docPath] is the value
    the template gave to its variable, [uri_href] the URI that was read. *)
Definition resource_primevue_docs (docs : DocStore) (uri_href docPath : string)
  : Completion Resource.result :=
  let docId := ("/primevue/" ++ docPath)%string in
  match Map_get docs docId with
  | None => Throw (Error ("Documentation not found: " ++ docPath))
  | Some doc =>
      Return {| Resource.contents :=
                  [ {| Resource.uri := uri_href;
                       Resource.mimeType := "text/markdown";
                       Resource.text := value (content doc) |} ] |}
  end.

(** The template [primevue://{docPath}] of the registration, matched
    against the whole URI.  A simple expression such as [{docPath}] stands
    for one non-empty run of code units free of slash and comma, so the
    variable never holds more than one path segment. *)
Definition match_docPath (href : string) : option string :=
  if prefix "primevue://" href then
    let docPath := drop 11 href in
    if String.eqb docPath EmptyString || includes docPath "/"
       || includes docPath ","
    then None
    else Some docPath
  else None.

Section ReadResource.
(** The failure the protocol library raises for a URI that no registered
    resource matches. *)
Variable unmatched : string -> JsError.

(** Reading the resource at [href]: the callback runs when the template
    matches, and only then. *)
Definition read_resource (docs : DocStore) (href : string)
  : Completion Resource.result :=
  match match_docPath href with
  | Some docPath => resource_primevue_docs docs href docPath
  | None => Throw (unmatched href)
  end.
End ReadResource.

(** ** The [search_primevue_docs] tool *)

Definition titleMatch (searchTerm : string) (doc : PrimeVueDoc) : bool :=
  includes (toLowerCase (title doc)) searchTerm.

Definition contentMatch (searchTerm : string) (doc : PrimeVueDoc) : bool :=
  includes (toLowerCase (value (content doc))) searchTerm.

Definition tagsMatch (searchTerm : string) (doc : PrimeVueDoc) : bool :=
  existsb (fun tag => includes (toLowerCase tag) searchTerm) (tags doc).

(** [lines.filter(...).slice(0, 3)] *)
Definition relevantLines (searchTerm : string) (doc : PrimeVueDoc) : list string :=
  firstn 3 (filter (fun line => includes (toLowerCase line) searchTerm)
                   (split "010" (value (content doc)))).

Definition snippet_of (searchTerm : string) (doc : PrimeVueDoc) : string :=
  match relevantLines searchTerm doc with
  | [] => title doc ++ " documentation"
  | ls => join nl ls
  end.

(** The object pushed for a matching document stored under key [key]. *)
Definition result_entry (searchTerm key : string) (doc : PrimeVueDoc)
  : ResultEntry.t :=
  {| ResultEntry.component := title doc;
     ResultEntry.category := category_of doc;
     ResultEntry.id := id doc;
     ResultEntry.snippet := snippet_of searchTerm doc;
     ResultEntry.uri := "primevue://" ++ replace key "/primevue/" EmptyString;
     ResultEntry.tags := tags doc |}.

(** [component && !doc.title.toLowerCase().includes(component.toLowerCase())] *)
Definition skipped_by (component : option string) (doc : PrimeVueDoc) : bool :=
  match supplied component with
  | Some c => negb (includes (toLowerCase (title doc)) (toLowerCase c))
  | None => false
  end.

(** The [for (const [id, doc] of this.docs)] loop, threading [results]. *)
Fixpoint search_loop (searchTerm : string) (component : option string)
    (docs : DocStore) (results : list ResultEntry.t) : list ResultEntry.t :=
  match docs with
  | [] => results
  | (key, doc) :: rest =>
      if skipped_by component doc then
        search_loop searchTerm component rest results
      else if titleMatch searchTerm doc || contentMatch searchTerm doc
              || tagsMatch searchTerm doc then
        search_loop searchTerm component rest
                    (results ++ [result_entry searchTerm key doc])
      else search_loop searchTerm component rest results
  end.

(** The comparator of [results.sort]: [bTitle - aTitle]. *)
Definition by_title_hit (searchTerm : string) (a b : ResultEntry.t) : Z :=
  let aTitle :=
    if includes (toLowerCase (ResultEntry.component a)) searchTerm then 1 else 0 in
  let bTitle :=
    if includes (toLowerCase (ResultEntry.component b)) searchTerm then 1 else 0 in
  bTitle - aTitle.

(** [results] as it stands when the reply is rendered. *)
Definition search_results (docs : DocStore) (query : string)
    (component : option string) : list ResultEntry.t :=
  let searchTerm := toLowerCase query in
  Array_sort (by_title_hit searchTerm)
             (search_loop searchTerm component docs []).

Definition render_entry (r : ResultEntry.t) : string :=
  "**" ++ ResultEntry.component r ++ "** (" ++ ResultEntry.category r ++ ")"
  ++ nl ++ "Tags: " ++ join ", " (ResultEntry.tags r) ++ nl
  ++ ResultEntry.snippet r ++ nl
  ++ "(URI: " ++ ResultEntry.uri r ++ ")" ++ nl.

Definition search_primevue_docs (docs : DocStore) (query : string)
    (component : option string) : Completion Tool.result :=
  let results := search_results docs query component in
  Return (Tool.reply
    ("Found " ++ Number_toString (List.length results) ++ " results for "
     ++ dquote ++ query ++ dquote ++ ":" ++ nl ++ nl
     ++ join nl (map render_entry results))).

(** ** The [list_categories] tool *)

(** [category && docCategory.toLowerCase() !== category.toLowerCase()] *)
Definition other_category (category : option string) (docCategory : string)
  : bool :=
  match supplied category with
  | Some c => negb (String.eqb (toLowerCase docCategory) (toLowerCase c))
  | None => false
  end.

Fixpoint categories_loop (category : option string) (docs : DocStore)
    (categories : JsMap (list string)) : JsMap (list string) :=
  match docs with
  | [] => categories
  | (_, doc) :: rest =>
      let docCategory := category_of doc in
      if other_category category docCategory then
        categories_loop category rest categories
      else
        let categories1 :=
          if Map_has categories docCategory then categories
          else Map_set categories docCategory [] in
        let categories2 :=
          match Map_get categories1 docCategory with
          | Some components =>
              Map_set categories1 docCategory (components ++ [title doc])
          | None => categories1
          end in
        categories_loop category rest categories2
  end.

(** The groups after [components.sort()] ran on each of them. *)
Definition category_groups (docs : DocStore) (category : option string)
  : list (string * list string) :=
  map (fun entry => (fst entry, Array_sort codeUnitCompare (snd entry)))
      (categories_loop category docs []).

Definition render_group (group : string * list string) : string :=
  "**" ++ fst group ++ "** (" ++ Number_toString (List.length (snd group))
  ++ " items)" ++ nl
  ++ join nl (map (fun c => "  - " ++ c)%string (snd group)).

Definition list_categories (docs : DocStore) (category : option string)
  : Completion Tool.result :=
  let result := join (nl ++ nl) (map render_group (category_groups docs category)) in
  Return (Tool.reply
    match supplied category with
    | Some c => "Components in " ++ dquote ++ c ++ dquote ++ " category:"
                ++ nl ++ nl ++ result
    | None => "PrimeVue Documentation Categories:" ++ nl ++ nl ++ result
    end).

(** ** The [get_component_api] tool *)

Module Available.
(** [{ title, category }] *)
Record t := { title : string; category : string }.
End Available.

(** [Array.from(this.docs.values()).find(d => ...)] *)
Definition find_by_title (docs : DocStore) (component : string)
  : option PrimeVueDoc :=
  find (fun d => String.eqb (toLowerCase (title d)) (toLowerCase component))
       (map snd docs).

(** The document [doc] holds when the second [if (!doc)] is reached. *)
Definition lookup_component (docs : DocStore) (component : string)
  : option PrimeVueDoc :=
  match find_by_title docs component with
  | Some doc => Some doc
  | None => Map_get docs ("/primevue/components/" ++ toLowerCase component)
  end.

(** The reducer of [availableComponents.reduce(..., {})]:
    [if (!acc[c]) acc[c] = []; acc[c].push(title); return acc].
    Calling [push] on an inherited property throws a [TypeError]. *)
Definition group_step (acc : Completion JsObject.t) (comp : Available.t)
  : Completion JsObject.t :=
  match acc with
  | Throw e => Throw e
  | Return o =>
      let c := Available.category comp in
      let o1 := if JsObject.truthy (JsObject.get o c) then o
                else Map_set o c [] in
      match JsObject.get o1 c with
      | JsObject.Own arr => Return (Map_set o1 c (arr ++ [Available.title comp]))
      | JsObject.Inherited => Throw TypeError
      | JsObject.Undefined => Throw TypeError
      end
  end.

Definition api_section (doc : PrimeVueDoc) : string :=
  let content := value (content doc) in
  let apiStart := indexOf content "### API" in
  if apiStart >? -1 then substring content apiStart else content.

Definition api_reference (doc : PrimeVueDoc) : string :=
  "# " ++ title doc ++ " API Reference" ++ nl
  ++ "Category: " ++ first_segment doc ++ nl
  ++ "Tags: " ++ join ", " (tags doc) ++ nl ++ nl
  ++ api_section doc.

Section GetComponentApi.
(** [String.prototype.localeCompare] of the host. *)
Variable localeCompare : string -> string -> Z.

(** [a.category.localeCompare(b.category) || a.title.localeCompare(b.title)] *)
Definition by_category_then_title (a b : Available.t) : Z :=
  let c := localeCompare (Available.category a) (Available.category b) in
  if c =? 0 then localeCompare (Available.title a) (Available.title b) else c.

Definition availableComponents (docs : DocStore) : list Available.t :=
  Array_sort by_category_then_title
    (map (fun d => {| Available.title := title d;
                      Available.category := category_of d |})
         (map snd docs)).

Definition componentsByCategory (docs : DocStore) : Completion JsObject.t :=
  fold_left group_step (availableComponents docs) (Return JsObject.empty).

Definition render_available (entry : string * list string) : string :=
  "**" ++ fst entry ++ "**: " ++ join ", " (snd entry).

Definition not_found_listing (docs : DocStore) (component : string)
  : Completion Tool.result :=
  match componentsByCategory docs with
  | Throw e => Throw e
  | Return o =>
      let availableList := join nl (map render_available (JsObject.entries o)) in
      Return (Tool.reply
        ("Component " ++ dquote ++ component ++ dquote ++ " not found." ++ nl
         ++ nl ++ "Available components:" ++ nl ++ availableList))
  end.

Definition get_component_api (docs : DocStore) (component : string)
  : Completion Tool.result :=
  match lookup_component docs component with
  | None => not_found_listing docs component
  | Some doc => Return (Tool.reply (api_reference doc))
  end.
End GetComponentApi.

(** ** Loading the store from disk *)

(** [s.endsWith(suffix)] *)
Definition endsWith (s suffix : string) : bool :=
  (String.length suffix <=? String.length s)%nat
  && String.eqb (drop (String.length s - String.length suffix) s) suffix.

(** What [fs.readdir(dir, { withFileTypes: true })] and [fs.readFile] see
    below the root: a regular file with its text ([None] when reading it
    fails), a directory with its named entries in the order [readdir]
    reports them, a directory that cannot be listed, or an entry that is
    neither a file nor a directory. *)
#[warnings="-register-all"]
Inductive FsNode : Type :=
| RegularFile (content : option string)
| Directory (entries : list (string * FsNode))
| UnreadableDirectory
| Special.

Section Loader.
(** [JSON.parse] followed by the cast to [PrimeVueDoc]; [None] when it
    throws. *)
Variable JSON_parse : string -> option PrimeVueDoc.

(** The body of [else if (entry.isFile() && entry.name.endsWith('.json'))]:
    a failure of [readFile] or [JSON.parse] is caught and the file is
    skipped. *)
Definition loadFile (name : string) (content : option string) (docs : DocStore)
  : DocStore :=
  if endsWith name ".json" then
    match content with
    | Some text =>
        match JSON_parse text with
        | Some doc => Map_set docs (id doc) doc
        | None => docs
        end
    | None => docs
    end
  else docs.

(** [loadDocsRecursive(dirPath)], threading [this.docs].  A [readdir] that
    fails is caught and leaves the store as it is.  The messages written to
    the console are not part of the model. *)
Fixpoint loadDocsRecursive (dir : FsNode) (docs : DocStore) {struct dir}
  : DocStore :=
  match dir with
  | Directory entries =>
      (fix each (entries : list (string * FsNode)) (docs : DocStore)
         {struct entries} : DocStore :=
         match entries with
         | [] => docs
         | (name, node) :: rest =>
             each rest
               match node with
               | Directory _ | UnreadableDirectory =>
                   loadDocsRecursive node docs
               | RegularFile content => loadFile name content docs
               | Special => docs
               end
         end) entries docs
  | RegularFile _ | UnreadableDirectory | Special => docs
  end.

(** The store after [PrimeVueServer.loadDocs()] ran on the root [docsPath],
    starting from the empty map. *)
Definition loadDocsFrom (root : FsNode) : DocStore := loadDocsRecursive root [].
End Loader.

(** ** The converter: from a markdown file to a document *)

(** [path.sep] is a slash or a backslash, by platform. *)
Inductive Platform : Type := posix | win32.

Definition path_sep (platform : Platform) : ascii :=
  match platform with
  | posix => "/"%char
  | win32 => "092"%char
  end.

(** [s.replace(/c/g, d)] for a single code unit [c]. *)
Fixpoint replaceAll (c d : ascii) (s : string) : string :=
  match s with
  | EmptyString => EmptyString
  | String x s' => String (if Ascii.eqb x c then d else x) (replaceAll c d s')
  end.

(** The white space and line terminators below 256 that [trim] removes:
    tab, line feed, vertical tab, form feed, carriage return, space and
    no-break space. *)
Definition isWhiteSpace (c : ascii) : bool :=
  let n := N_of_ascii c in
  ((9 <=? n) && (n <=? 13) || (n =? 32) || (n =? 160))%N.

Fixpoint trimStart (s : string) : string :=
  match s with
  | EmptyString => EmptyString
  | String c s' => if isWhiteSpace c then trimStart s' else s
  end.

Fixpoint trimEnd (s : string) : string :=
  match s with
  | EmptyString => EmptyString
  | String c s' =>
      match trimEnd s' with
      | EmptyString => if isWhiteSpace c then EmptyString
                       else String c EmptyString
      | rest => String c rest
      end
  end.

(** [s.trim()] *)
Definition trim (s : string) : string := trimEnd (trimStart s).

(** [filename.replace(/\.md$/, '')] *)
Definition strip_md (filename : string) : string :=
  if endsWith filename ".md"
  then take (String.length filename - 3) filename
  else filename.

(** [rest.pop()]: the last element, [undefined] on an empty array. *)
Fixpoint Array_pop (l : list string) : option string :=
  match l with
  | [] => None
  | [x] => Some x
  | _ :: rest => Array_pop rest
  end.

(** The document [convertToMCP(mdPath)] builds and writes out, from the
    path of the file relative to the input directory, the text of the file
    and the two time stamps it takes; [McpDocument] has the fields of
    [PrimeVueDoc].  Reading the file and writing the result are not part of
    the model. *)
Definition convertToMCP (platform : Platform)
    (mdPath relativePath mdBody created_at updated_at : string)
  : Completion PrimeVueDoc :=
  let segments := split (path_sep platform) relativePath in
  let category := hd EmptyString segments in
  let rest := tl segments in
  match Array_pop rest with
  | None => Throw (Error ("Invalid file path: " ++ mdPath))
  | Some filename =>
      if String.eqb filename EmptyString
      then Throw (Error ("Invalid file path: " ++ mdPath))
      else
        let name := strip_md filename in
        Return
          {| schema := "1.0";
             id := "/primevue/" ++ toLowerCase category ++ "/" ++ name;
             title := replaceAll "-" " " name;
             tags := [category];
             content := {| type := "text/markdown"; value := trim mdBody |};
             metadata := {| source := "https://primevue.org";
                            file := replaceAll "092" "/" relativePath;
                            created := created_at;
                            updated := updated_at |} |}
  end.

(** * Vocabulary of the properties *)

(** [pat] occurs in [s]. *)
Definition Substring (pat s : string) : Prop :=
  exists pre post : string, s = (pre ++ pat ++ post)%string.

(** [Selected P l l'] : [l'] lists, in the order of [l] and once per
    position, exactly the elements of [l] that satisfy [P]. *)
Inductive Selected {A : Type} (P : A -> Prop) : list A -> list A -> Prop :=
| Selected_nil : Selected P [] []
| Selected_keep x l l' : P x -> Selected P l l' -> Selected P (x :: l) (x :: l')
| Selected_skip x l l' : ~ P x -> Selected P l l' -> Selected P (x :: l) l'.

(** The order a comparator induces. *)
Definition cmp_le {A : Type} (cmp : A -> A -> Z) (a b : A) : Prop :=
  cmp a b <= 0.

(** The comparator [b - a] on a flag. *)
Definition flag_cmp {A : Type} (flag : A -> bool) (a b : A) : Z :=
  (if flag b then 1 else 0) - (if flag a then 1 else 0).

(** The query occurs, case-insensitively, in the title, in the body or in
    some tag. *)
Definition Matches (query : string) (doc : PrimeVueDoc) : Prop :=
  let q := toLowerCase query in
  Substring q (toLowerCase (title doc))
  \/ Substring q (toLowerCase (value (content doc)))
  \/ exists tag, In tag (tags doc) /\ Substring q (toLowerCase tag).

(** The title contains the string, case-insensitively. *)
Definition TitleHas (s : string) (doc : PrimeVueDoc) : Prop :=
  Substring (toLowerCase s) (toLowerCase (title doc)).

(** The document passes the optional component filter. *)
Definition Passes (component : option string) (doc : PrimeVueDoc) : Prop :=
  match supplied component with
  | Some c => TitleHas c doc
  | None => True
  end.

(** The entry Search makes for a stored document. *)
Definition entry_of (query : string) (kd : string * PrimeVueDoc) : ResultEntry.t :=
  result_entry (toLowerCase query) (fst kd) (snd kd).

(** [titleMatch || contentMatch || tagsMatch] *)
Definition doc_matches (searchTerm : string) (doc : PrimeVueDoc) : bool :=
  titleMatch searchTerm doc || contentMatch searchTerm doc
  || tagsMatch searchTerm doc.

(** The documents Search keeps, in collection order. *)
Definition kept_docs (docs : DocStore) (query : string) (component : option string)
  : DocStore :=
  filter (fun kd => negb (skipped_by component (snd kd))
                    && doc_matches (toLowerCase query) (snd kd)) docs.

(** Lexicographic order on code units. *)
Inductive lex_le : string -> string -> Prop :=
| lex_le_nil s : lex_le EmptyString s
| lex_le_lt c d s t :
    (N_of_ascii c < N_of_ascii d)%N -> lex_le (String c s) (String d t)
| lex_le_eq c s t : lex_le s t -> lex_le (String c s) (String c t).

(** The array under a key, empty while the key is absent. *)
Definition or_nil (o : option (list string)) : list string :=
  match o with Some arr => arr | None => [] end.

(** What one iteration of the grouping loop does to the map. *)
Definition push_title (m : JsMap (list string)) (c t : string) : JsMap (list string) :=
  Map_set m c (or_nil (Map_get m c) ++ [t]).

(** The titles of one category, in collection order. *)
Definition titles_in (cat : string) (docs : DocStore) : list string :=
  map (fun kd => title (snd kd))
      (filter (fun kd => String.eqb (category_of (snd kd)) cat) docs).

(** The number of titles held by all groups together. *)
Definition total_items (m : JsMap (list string)) : nat :=
  list_sum (map (fun g => List.length (snd g)) m).

(** [s] splits as [pre ++ pat ++ post] and [pat] occurs nowhere earlier. *)
Definition FirstOccurrence (pat s pre post : string) : Prop :=
  s = (pre ++ pat ++ post)%string
  /\ forall pre' post', s = (pre' ++ pat ++ post')%string ->
       (String.length pre <= String.length pre')%nat.

(** No category of the store names a property of [Object.prototype]. *)
Definition plain_categories (docs : DocStore) : Prop :=
  forall key doc, In (key, doc) docs ->
    existsb (String.eqb (category_of doc)) JsObject.Object_prototype_keys = false.

(** No category of the store is an array index. *)
Definition unindexed_categories (docs : DocStore) : Prop :=
  forall key doc, In (key, doc) docs ->
    JsObject.is_index (category_of doc) = false.

(** What [Array.prototype.sort] asks of a comparator, for a two-argument
    order on strings: opposite signs on swapped arguments, and a
    transitive [<=]. *)
Definition consistent_comparator (cmp : string -> string -> Z) : Prop :=
  (forall a b, Z.sgn (cmp b a) = - Z.sgn (cmp a b))
  /\ (forall a b c, cmp a b <= 0 -> cmp b c <= 0 -> cmp a c <= 0).

(** The components of one category, as the listing pairs them. *)
Definition available_in (cat : string) (l : list Available.t) : list string :=
  map Available.title
      (filter (fun comp => String.eqb (Available.category comp) cat) l).

(** The reducer on a store with plain categories. *)
Definition push_component (acc : JsObject.t) (comp : Available.t) : JsObject.t :=
  push_title acc (Available.category comp) (Available.title comp).

(** Induction on a file tree, with the property known for every entry of
    a directory. *)
Section FsNode_induction.
Variable P : FsNode -> Prop.
Hypothesis P_file : forall content, P (RegularFile content).
Hypothesis P_dir :
  forall entries, Forall (fun e => P (snd e)) entries -> P (Directory entries).
Hypothesis P_unreadable : P UnreadableDirectory.
Hypothesis P_special : P Special.

Fixpoint FsNode_tree_ind (node : FsNode) : P node :=
  match node with
  | RegularFile content => P_file content
  | Directory entries =>
      P_dir entries
        ((fix all (es : list (string * FsNode))
            : Forall (fun e => P (snd e)) es :=
            match es with
            | [] => Forall_nil _
            | e :: es' => Forall_cons e (FsNode_tree_ind (snd e)) (all es')
            end) entries)
  | UnreadableDirectory => P_unreadable
  | Special => P_special
  end.
End FsNode_induction.

(** The regular file [name], with what reading it gives, lies below the
    root behind directories that can all be listed. *)
Inductive FileUnder : FsNode -> string -> option string -> Prop :=
| FileUnder_here entries name content :
    In (name, RegularFile content) entries ->
    FileUnder (Directory entries) name content
| FileUnder_below entries dirname sub name content :
    In (dirname, sub) entries -> FileUnder sub name content ->
    FileUnder (Directory entries) name content.

(** The file is one the loader enters: its name ends in [.json], it can be
    read, and its text parses to [doc]. *)
Definition LoadableAs (JSON_parse : string -> option PrimeVueDoc)
    (root : FsNode) (doc : PrimeVueDoc) : Prop :=
  exists stem text,
    FileUnder root (stem ++ ".json") (Some text) /\ JSON_parse text = Some doc.

(** The documents one entry contributes, in traversal order. *)
Definition file_documents (JSON_parse : string -> option PrimeVueDoc)
    (name : string) (content : option string) : list PrimeVueDoc :=
  if endsWith name ".json" then
    match content with
    | Some text =>
        match JSON_parse text with Some doc => [doc] | None => [] end
    | None => []
    end
  else [].

Fixpoint json_documents (JSON_parse : string -> option PrimeVueDoc)
    (dir : FsNode) {struct dir} : list PrimeVueDoc :=
  match dir with
  | Directory entries =>
      (fix each (entries : list (string * FsNode)) {struct entries}
         : list PrimeVueDoc :=
         match entries with
         | [] => []
         | (name, node) :: rest =>
             match node with
             | Directory _ | UnreadableDirectory => json_documents JSON_parse node
             | RegularFile content => file_documents JSON_parse name content
             | Special => []
             end ++ each rest
         end) entries
  | RegularFile _ | UnreadableDirectory | Special => []
  end.

(** What one directory entry contributes. *)
Definition entry_documents (JSON_parse : string -> option PrimeVueDoc)
    (entry : string * FsNode) : list PrimeVueDoc :=
  match snd entry with
  | Directory _ | UnreadableDirectory => json_documents JSON_parse (snd entry)
  | RegularFile content => file_documents JSON_parse (fst entry) content
  | Special => []
  end.

(** The list without the later repetitions of an element. *)
Fixpoint keep_first (l : list string) : list string :=
  match l with
  | [] => []
  | x :: rest => x :: filter (fun y => negb (String.eqb y x)) (keep_first rest)
  end.

(** The code unit [c] does not occur in [s]. *)
Definition NoChar (c : ascii) (s : string) : Prop :=
  ~ In c (list_ascii_of_string s).

(** ** Corpora *)

(** The end-to-end example of the specification. *)

Module Example_corpus.
Definition mkdoc (i t c f : string) (tg : list string) : PrimeVueDoc :=
  {| schema := "1.0"; id := i; title := t; tags := tg;
     content := {| type := "text/markdown"; value := c |};
     metadata := {| source := "https://primevue.org"; file := f;
                    created := EmptyString; updated := EmptyString |} |}.

Definition button : PrimeVueDoc :=
  mkdoc "/primevue/components/button" "button"
        ("Button usage. ### API" ++ nl ++ "props: label")
        "components/button.md" ["components"].

Definition accordion : PrimeVueDoc :=
  mkdoc "/primevue/components/accordion" "accordion" "Accordion usage"
        "components/accordion.md" ["components"].

Definition docs : DocStore := loadDocs [button; accordion].
End Example_corpus.

(** A hand-written document whose id has one segment after the
    namespace. *)
Module Flat_corpus.
Definition changelog : PrimeVueDoc :=
  Example_corpus.mkdoc "/primevue/changelog" "changelog" "Changes"
                       "changelog.md" ["meta"].

Definition docs : DocStore := loadDocs [Example_corpus.button; changelog].
End Flat_corpus.

(** A page that sits outside every directory. *)
Module Rootless_corpus.
Definition orphan : PrimeVueDoc :=
  Example_corpus.mkdoc "/primevue//orphan" "orphan" "Orphan page"
                       "/orphan.md" [EmptyString].

Definition docs : DocStore := loadDocs [Example_corpus.button; orphan].
End Rootless_corpus.

Module Inherited_corpus.
(** A corpus scraped into a directory called constructor. *)
Definition overview : PrimeVueDoc :=
  Example_corpus.mkdoc "/primevue/constructor/overview" "overview"
                       "Constructor overview" "constructor/overview.md"
                       ["constructor"].

Definition docs : DocStore := loadDocs [overview].
End Inherited_corpus.

Module Numbered_corpus.
(** A corpus whose directories are numbered. *)
Definition intro : PrimeVueDoc :=
  Example_corpus.mkdoc "/primevue/10/intro" "intro" "Introduction"
                       "10/intro.md" ["10"].
Definition tips : PrimeVueDoc :=
  Example_corpus.mkdoc "/primevue/9/tips" "tips" "Tips" "9/tips.md" ["9"].

Definition docs : DocStore := loadDocs [intro; tips].
End Numbered_corpus.

(** * Properties *)

(** ** The end-to-end example *)

Example search_api_example :
  map ResultEntry.component (search_results Example_corpus.docs "api" None) = ["button"]
  /\ map ResultEntry.snippet (search_results Example_corpus.docs "api" None)
     = ["Button usage. ### API"].
Proof. split; reflexivity. Qed.

Example list_categories_example :
  category_groups Example_corpus.docs None = [("components", ["accordion"; "button"])].
Proof. reflexivity. Qed.

Example get_component_api_example :
  get_component_api codeUnitCompare Example_corpus.docs "slider"
  = Return (Tool.reply
      ("Component " ++ dquote ++ "slider" ++ dquote ++ " not found." ++ nl ++ nl
       ++ "Available components:" ++ nl ++ "**components**: accordion, button")).
Proof. reflexivity. Qed.

(** ** Strings *)

Example toLowerCase_ex : toLowerCase "DataTable API" = "datatable api".
Proof. reflexivity. Qed.

Example split_ex :
  split "/" "components/button.md" = ["components"; "button.md"]
  /\ split "/" EmptyString = [EmptyString]
  /\ split "/" "/a" = [EmptyString; "a"].
Proof. repeat split. Qed.

Example indexOf_ex :
  indexOf "Button usage. ### API" "### API" = 14 /\ indexOf "abc" "x" = -1.
Proof. split; reflexivity. Qed.

Example replace_ex :
  replace "/primevue/components/button" "/primevue/" EmptyString
  = "components/button".
Proof. reflexivity. Qed.

Example Number_toString_ex : Number_toString 0 = "0" /\ Number_toString 12 = "12".
Proof. split; reflexivity. Qed.

Lemma append_assoc (a b c : string) : ((a ++ b) ++ c = a ++ (b ++ c))%string.
Proof. induction a as [|x a IH]; simpl; [reflexivity | now rewrite IH]. Qed.

Lemma append_nil_r (a : string) : (a ++ EmptyString)%string = a.
Proof. induction a as [|x a IH]; simpl; [reflexivity | now rewrite IH]. Qed.

Lemma prefix_iff (p s : string) :
  prefix p s = true <-> exists post, s = (p ++ post)%string.
Proof.
  revert s; induction p as [|c p IH]; intros s.
  - split; [intros _; now exists s | intros _; now destruct s].
  - destruct s as [|d s]; simpl.
    + split; [discriminate | intros [post H]; discriminate].
    + destruct (ascii_dec c d) as [->|Hne].
      * rewrite IH. split; intros [post H]; exists post.
        -- now rewrite H.
        -- now injection H.
      * split; [discriminate | intros [post H]; injection H; congruence].
Qed.

Lemma take_drop (n : nat) (s : string) : (take n s ++ drop n s)%string = s.
Proof.
  revert s; induction n as [|n IH]; intros [|c s]; simpl; try reflexivity.
  now rewrite IH.
Qed.

Lemma take_length (n : nat) (s : string) :
  (n <= String.length s)%nat -> String.length (take n s) = n.
Proof.
  revert s; induction n as [|n IH]; intros [|c s]; simpl; intros H;
    try reflexivity; try lia.
  rewrite IH; lia.
Qed.

Lemma drop_append (pre s : string) : drop (String.length pre) (pre ++ s) = s.
Proof. induction pre as [|c pre IH]; simpl; [now destruct s | exact IH]. Qed.

Lemma Substring_iff_drop (pat s : string) :
  Substring pat s <-> exists j, prefix pat (drop j s) = true.
Proof.
  split.
  - intros (pre & post & ->). exists (String.length pre).
    rewrite drop_append. apply prefix_iff. now exists post.
  - intros [j H]. apply prefix_iff in H as [post H].
    exists (take j s), post. now rewrite <- H, take_drop.
Qed.

Lemma indexOf_from_eq (pat s : string) (i : Z) :
  indexOf_from pat s i =
  if prefix pat s then i
  else match s with
       | EmptyString => -1
       | String _ s' => indexOf_from pat s' (i + 1)
       end.
Proof. now destruct s. Qed.

Lemma indexOf_from_none (pat s : string) (i : Z) :
  0 <= i -> indexOf_from pat s i = -1 ->
  forall j, prefix pat (drop j s) = false.
Proof.
  revert i; induction s as [|c s IH]; intros i Hi H j;
    rewrite indexOf_from_eq in H.
  - destruct (prefix pat EmptyString) eqn:E; [lia|]. now destruct j.
  - destruct (prefix pat (String c s)) eqn:E; [lia|].
    destruct j as [|j]; [exact E|]. simpl. apply (IH (i + 1)); [lia | exact H].
Qed.

Lemma indexOf_from_found (pat s : string) (i : Z) :
  0 <= i -> indexOf_from pat s i <> -1 ->
  exists k : nat,
    indexOf_from pat s i = i + Z.of_nat k
    /\ (k <= String.length s)%nat
    /\ prefix pat (drop k s) = true
    /\ forall j, (j < k)%nat -> prefix pat (drop j s) = false.
Proof.
  revert i; induction s as [|c s IH]; intros i Hi H;
    rewrite indexOf_from_eq in H |- *.
  - destruct (prefix pat EmptyString) eqn:E; [|congruence].
    exists 0%nat. cbn [drop]. rewrite E. repeat split; try lia; auto.
  - destruct (prefix pat (String c s)) eqn:E.
    + exists 0%nat. cbn [drop]. rewrite E.
      repeat split; cbn [String.length]; try lia; auto.
      + destruct (IH (i + 1)) as (k & Hk & Hlen & Hpre & Hmin); [lia | exact H |].
      exists (S k). rewrite Hk.
      repeat split; cbn [String.length drop]; try lia; auto.
      intros [|j] Hj; [exact E | cbn [drop]; apply Hmin; lia].
Qed.

(** [includes] decides occurrence. *)
Lemma includes_iff (s pat : string) : includes s pat = true <-> Substring pat s.
Proof.
  unfold includes, indexOf. rewrite Substring_iff_drop, negb_true_iff, Z.eqb_neq.
  split.
  - intros H. destruct (indexOf_from_found pat s 0) as (k & _ & _ & Hk & _);
      [lia | exact H | now exists k].
  - intros [j Hj] H.
    now rewrite (indexOf_from_none pat s 0 ltac:(lia) H j) in Hj.
Qed.

Lemma includes_false_iff (s pat : string) :
  includes s pat = false <-> ~ Substring pat s.
Proof.
  rewrite <- includes_iff. destruct (includes s pat); split; congruence.
Qed.

Lemma split_not_nil (sep : ascii) (s : string) : split sep s <> [].
Proof.
  induction s as [|c s IH]; simpl; [discriminate|].
  destruct (Ascii.eqb c sep); [discriminate|].
  destruct (split sep s); [contradiction | discriminate].
Qed.

(** ** Selection in encounter order *)

Lemma Selected_filter {A : Type} (P : A -> Prop) (f : A -> bool) (l : list A) :
  (forall x, f x = true <-> P x) -> Selected P l (filter f l).
Proof.
  intros Hf. induction l as [|x l IH]; simpl; [constructor|].
  destruct (f x) eqn:E.
  - apply Selected_keep; [now apply Hf | exact IH].
  - apply Selected_skip; [|exact IH]. rewrite <- Hf. congruence.
Qed.

Lemma Selected_In {A : Type} (P : A -> Prop) (l l' : list A) (x : A) :
  Selected P l l' -> (In x l' <-> In x l /\ P x).
Proof.
  induction 1 as [|y l l' Hy _ IH|y l l' Hy _ IH]; simpl.
  - tauto.
  - rewrite IH. split; [intros [->|[? ?]]; auto | intros [[->|?] ?]; auto].
  - rewrite IH. split; [tauto | intros [[->|?] ?]; [contradiction | auto]].
Qed.

Lemma Selected_functional {A : Type} (P : A -> Prop) (l l1 l2 : list A) :
  Selected P l l1 -> Selected P l l2 -> l1 = l2.
Proof.
  intros H1; revert l2; induction H1; intros l2 H2; inversion H2; subst;
    try contradiction; try reflexivity; try (f_equal; auto); auto.
Qed.

(** ** [Array.prototype.sort] *)

Lemma sort_insert_perm {A : Type} (cmp : A -> A -> Z) (x : A) (l : list A) :
  Permutation (sort_insert cmp x l) (x :: l).
Proof.
  induction l as [|y l IH]; simpl; [reflexivity|].
  destruct (cmp x y <=? 0); [reflexivity|].
  rewrite IH. apply perm_swap.
Qed.

Lemma Array_sort_perm {A : Type} (cmp : A -> A -> Z) (l : list A) :
  Permutation (Array_sort cmp l) l.
Proof.
  induction l as [|x l IH]; simpl; [reflexivity|].
  rewrite sort_insert_perm. now constructor.
Qed.

Lemma Array_sort_length {A : Type} (cmp : A -> A -> Z) (l : list A) :
  List.length (Array_sort cmp l) = List.length l.
Proof. apply Permutation_length, Array_sort_perm. Qed.

Section SortedByComparator.
Context {A : Type} (cmp : A -> A -> Z).
Hypothesis cmp_total : forall a b, 0 < cmp a b -> cmp b a <= 0.

Lemma sort_insert_sorted (x : A) (l : list A) :
  Sorted (cmp_le cmp) l -> Sorted (cmp_le cmp) (sort_insert cmp x l).
Proof.
  induction 1 as [|y l Hs IH Hhd]; simpl; [repeat constructor|].
  destruct (cmp x y <=? 0) eqn:E.
  - repeat constructor; auto. unfold cmp_le. lia.
  - constructor; [exact IH|].
    destruct l as [|z l]; simpl.
    + constructor. apply cmp_total. lia.
    + destruct (cmp x z <=? 0); constructor.
      * apply cmp_total. lia.
      * now inversion Hhd.
Qed.

Lemma Array_sort_sorted (l : list A) : Sorted (cmp_le cmp) (Array_sort cmp l).
Proof.
  induction l as [|x l IH]; simpl; [constructor | now apply sort_insert_sorted].
Qed.
End SortedByComparator.

(** A two-valued comparator [b - a] on flags makes the stable sort a stable
    partition: flagged elements first, both classes in their old order. *)
Section SortByFlag.
Context {A : Type} (flag : A -> bool).

Lemma sort_insert_flag (x : A) (l : list A) :
  sort_insert (flag_cmp flag) x (filter flag l ++ filter (fun y => negb (flag y)) l)
  = filter flag (x :: l) ++ filter (fun y => negb (flag y)) (x :: l).
Proof.
  simpl. destruct (flag x) eqn:Ex; simpl.
  - destruct (filter flag l ++ filter (fun y => negb (flag y)) l) as [|y r];
      simpl; [reflexivity|].
    unfold flag_cmp. rewrite Ex. now destruct (flag y).
  - induction l as [|y l IH]; simpl; [reflexivity|].
    destruct (flag y) eqn:Ey; simpl.
    + unfold flag_cmp at 1. rewrite Ex, Ey. simpl. now rewrite IH.
    + clear IH.
      assert (H : forall h, Forall (fun z => flag z = true) h ->
                sort_insert (flag_cmp flag) x (h ++ y :: filter (fun y => negb (flag y)) l)
                = h ++ x :: y :: filter (fun y => negb (flag y)) l).
      { induction 1 as [|z h Hz _ IHh]; simpl.
        - unfold flag_cmp. now rewrite Ex, Ey.
        - unfold flag_cmp at 1. rewrite Ex, Hz. simpl. now rewrite IHh. }
      apply H. apply Forall_forall. intros z Hz. now apply filter_In in Hz.
Qed.

Lemma Array_sort_flag (l : list A) :
  Array_sort (flag_cmp flag) l = filter flag l ++ filter (fun y => negb (flag y)) l.
Proof.
  induction l as [|x l IH]; [reflexivity|].
  cbn [Array_sort]. rewrite IH. apply sort_insert_flag.
Qed.
End SortByFlag.

(** ** Search *)

Lemma titleMatch_iff (query : string) (doc : PrimeVueDoc) :
  titleMatch (toLowerCase query) doc = true <-> TitleHas query doc.
Proof. apply includes_iff. Qed.

Lemma doc_matches_iff (query : string) (doc : PrimeVueDoc) :
  doc_matches (toLowerCase query) doc = true <-> Matches query doc.
Proof.
  unfold doc_matches, Matches, titleMatch, contentMatch, tagsMatch.
  rewrite !orb_true_iff, !includes_iff, existsb_exists.
  assert (Htag : (exists tag, In tag (tags doc)
                    /\ includes (toLowerCase tag) (toLowerCase query) = true)
                 <-> (exists tag, In tag (tags doc)
                        /\ Substring (toLowerCase query) (toLowerCase tag))).
  { split; intros (tag & Hin & H); exists tag; split; auto;
      now apply includes_iff. }
  cbv zeta. rewrite Htag. tauto.
Qed.

Lemma skipped_by_iff (component : option string) (doc : PrimeVueDoc) :
  skipped_by component doc = false <-> Passes component doc.
Proof.
  unfold skipped_by, Passes. destruct (supplied component) as [c|]; [|tauto].
  rewrite negb_false_iff. apply includes_iff.
Qed.

Lemma search_loop_filter (t : string) (component : option string)
    (docs : DocStore) (results : list ResultEntry.t) :
  search_loop t component docs results
  = results
    ++ map (fun kd => result_entry t (fst kd) (snd kd))
           (filter (fun kd => negb (skipped_by component (snd kd))
                              && doc_matches t (snd kd)) docs).
Proof.
  revert results; induction docs as [|[key doc] docs IH]; intros results; simpl.
  - now rewrite app_nil_r.
  - unfold doc_matches at 1.
    destruct (skipped_by component doc); simpl; [apply IH|].
    destruct (titleMatch t doc || contentMatch t doc || tagsMatch t doc);
      rewrite IH; [|reflexivity].
    now rewrite <- app_assoc.
Qed.

Lemma kept_docs_Selected docs query component :
  Selected (fun kd => Passes component (snd kd) /\ Matches query (snd kd))
           docs (kept_docs docs query component).
Proof.
  apply Selected_filter. intros [key doc]; simpl.
  now rewrite andb_true_iff, negb_true_iff, skipped_by_iff, doc_matches_iff.
Qed.

Lemma by_title_hit_flag (t : string) :
  by_title_hit t
  = flag_cmp (fun e => includes (toLowerCase (ResultEntry.component e)) t).
Proof. reflexivity. Qed.

Lemma filter_map_swap {A B : Type} (f : A -> B) (p : B -> bool) (l : list A) :
  filter p (map f l) = map f (filter (fun x => p (f x)) l).
Proof.
  induction l as [|x l IH]; simpl; [reflexivity|].
  destruct (p (f x)); simpl; now rewrite IH.
Qed.

(** The sorted result array: title hits, then the rest, each class in
    collection order. *)
Lemma search_results_partition docs query component :
  search_results docs query component
  = map (entry_of query)
        (filter (fun kd => titleMatch (toLowerCase query) (snd kd))
                (kept_docs docs query component)
         ++ filter (fun kd => negb (titleMatch (toLowerCase query) (snd kd)))
                   (kept_docs docs query component)).
Proof.
  unfold search_results. rewrite search_loop_filter, by_title_hit_flag.
  rewrite Array_sort_flag. cbn [app].
  rewrite map_app, !filter_map_swap. reflexivity.
Qed.

Lemma filter_partition_perm {A : Type} (f : A -> bool) (l : list A) :
  Permutation (filter f l ++ filter (fun x => negb (f x)) l) l.
Proof.
  induction l as [|x l IH]; simpl; [reflexivity|].
  destruct (f x); simpl.
  - now constructor.
  - rewrite <- Permutation_middle. now constructor.
Qed.

(** C1: Search(q) without a component filter has one entry for each
    document of the collection in which the lower-cased query occurs in the
    lower-cased title, body or some tag, and no other entry: the entries are,
    up to order, those of the documents selected by [Matches]. *)
Theorem search_no_false_positive_no_false_negative :
  forall (docs : DocStore) (query : string),
  exists hits : DocStore,
    Selected (fun kd => Matches query (snd kd)) docs hits
    /\ Permutation (search_results docs query None) (map (entry_of query) hits).
Proof.
  intros docs query. exists (kept_docs docs query None). split.
  - apply Selected_filter. intros [key doc]; simpl. apply doc_matches_iff.
  - rewrite search_results_partition. apply Permutation_map, filter_partition_perm.
Qed.

(** C2: the result sequence of Search is a stable two-way partition of the
    matching documents: first the entries whose title contains the query
    (case-insensitively), then those whose title does not, each class in the
    order in which the collection was iterated. *)
Theorem search_results_stable_partition :
  forall (docs : DocStore) (query : string) (component : option string),
  exists kept titleHits others : DocStore,
    Selected (fun kd => Passes component (snd kd) /\ Matches query (snd kd))
             docs kept
    /\ Selected (fun kd => TitleHas query (snd kd)) kept titleHits
    /\ Selected (fun kd => ~ TitleHas query (snd kd)) kept others
    /\ search_results docs query component
       = map (entry_of query) titleHits ++ map (entry_of query) others.
Proof.
  intros docs query component.
  exists (kept_docs docs query component),
    (filter (fun kd => titleMatch (toLowerCase query) (snd kd))
            (kept_docs docs query component)),
    (filter (fun kd => negb (titleMatch (toLowerCase query) (snd kd)))
            (kept_docs docs query component)).
  repeat split.
  - apply kept_docs_Selected.
  - apply Selected_filter. intros kd. apply titleMatch_iff.
  - apply Selected_filter. intros kd.
    rewrite negb_true_iff, <- titleMatch_iff.
    destruct (titleMatch (toLowerCase query) (snd kd)); split; congruence.
  - rewrite search_results_partition. apply map_app.
Qed.

Lemma includes_empty (s : string) : includes s EmptyString = true.
Proof. apply includes_iff. now exists EmptyString, s. Qed.

Lemma filter_comm {A : Type} (f g : A -> bool) (l : list A) :
  filter f (filter g l) = filter g (filter f l).
Proof.
  induction l as [|x l IH]; simpl; [reflexivity|].
  destruct (f x) eqn:Ef, (g x) eqn:Eg; simpl; rewrite ?Ef, ?Eg, IH; reflexivity.
Qed.

Lemma filter_andb {A : Type} (f g : A -> bool) (l : list A) :
  filter (fun x => f x && g x) l = filter f (filter g l).
Proof.
  induction l as [|x l IH]; simpl; [reflexivity|].
  destruct (g x); simpl; [|rewrite andb_false_r; exact IH].
  rewrite andb_true_r. destruct (f x); now rewrite IH.
Qed.

Lemma passes_component_eq (c : string) (doc : PrimeVueDoc) :
  negb (skipped_by (Some c) doc)
  = includes (toLowerCase (title doc)) (toLowerCase c).
Proof.
  unfold skipped_by, supplied.
  destruct (String.eqb_spec c EmptyString) as [->|Hc].
  - simpl. now rewrite includes_empty.
  - apply negb_involutive.
Qed.

Lemma kept_docs_component docs query c :
  kept_docs docs query (Some c)
  = filter (fun kd => includes (toLowerCase (title (snd kd))) (toLowerCase c))
           (kept_docs docs query None).
Proof.
  unfold kept_docs. rewrite <- filter_andb. apply filter_ext.
  intros kd. now rewrite passes_component_eq.
Qed.

(** C6: the results of Search(q, component = c) are exactly, and in the
    same order, the results of Search(q) whose document title contains [c]
    case-insensitively; in particular they form a subset of them.  The
    component is only a filter: by C1 and C2 every entry on either side
    belongs to a document in which the query itself occurs. *)
Theorem search_component_is_prefilter :
  forall (docs : DocStore) (query c : string),
    Selected (fun e => Substring (toLowerCase c)
                                 (toLowerCase (ResultEntry.component e)))
             (search_results docs query None)
             (search_results docs query (Some c))
    /\ (forall e, In e (search_results docs query (Some c)) ->
          In e (search_results docs query None)
          /\ exists key doc,
               In (key, doc) docs /\ e = entry_of query (key, doc)
               /\ TitleHas c doc /\ Matches query doc).
Proof.
  intros docs query c.
  set (pe := fun e => includes (toLowerCase (ResultEntry.component e))
                               (toLowerCase c)).
  assert (Heq : search_results docs query (Some c)
                = filter pe (search_results docs query None)).
  { rewrite !search_results_partition, kept_docs_component.
    rewrite filter_map_swap, filter_app.
    f_equal. f_equal; apply filter_comm. }
  assert (Hsel : Selected (fun e => Substring (toLowerCase c)
                             (toLowerCase (ResultEntry.component e)))
                   (search_results docs query None)
                   (search_results docs query (Some c))).
  { rewrite Heq. apply Selected_filter. intros e. apply includes_iff. }
  split; [exact Hsel|].
  intros e He. split.
  - now apply (Selected_In _ _ _ e Hsel) in He.
  - pose proof He as He'. apply (Selected_In _ _ _ e Hsel) in He' as [_ Hc].
    rewrite search_results_partition in He.
    apply in_map_iff in He as ([key doc] & <- & Hin).
    assert (Hk : In (key, doc) (kept_docs docs query (Some c))).
    { apply in_app_or in Hin as [H|H]; now apply filter_In in H. }
    apply (Selected_In _ _ _ _ (kept_docs_Selected docs query (Some c))) in Hk
      as (Hdocs & _ & Hm).
    exists key, doc. repeat split; auto.
Qed.

(** [split] cuts at every separator and nowhere else. *)
Lemma join_cons2 (sep x y : string) (r : list string) :
  join sep (x :: y :: r) = (x ++ sep ++ join sep (y :: r))%string.
Proof. reflexivity. Qed.

Lemma split_join (sep : ascii) (s : string) :
  join (String sep EmptyString) (split sep s) = s.
Proof.
  induction s as [|c s IH]; [reflexivity|]. simpl.
  pose proof (split_not_nil sep s) as Hnn. revert IH Hnn.
  destruct (Ascii.eqb_spec c sep) as [->|Hne];
    destruct (split sep s) as [|x r]; intros IH Hnn; try contradiction.
  - rewrite join_cons2, IH. reflexivity.
  - destruct r as [|y r].
    + simpl in *. now rewrite IH.
    + rewrite join_cons2 in *. now rewrite <- IH.
Qed.

Lemma split_no_sep (sep : ascii) (s : string) :
  Forall (fun piece => ~ In sep (list_ascii_of_string piece)) (split sep s).
Proof.
  induction s as [|c s IH]; simpl; [repeat constructor; auto|].
  destruct (Ascii.eqb_spec c sep) as [->|Hne].
  - constructor; [simpl; auto | exact IH].
  - destruct (split sep s) as [|x r]; [repeat constructor; simpl; tauto|].
    inversion IH; subst. constructor; [|assumption].
    simpl. intros [H|H]; [congruence | contradiction].
Qed.

Lemma split_hd_spec (sep : ascii) (s : string) :
  exists rest,
    s = (hd EmptyString (split sep s) ++ rest)%string
    /\ ~ In sep (list_ascii_of_string (hd EmptyString (split sep s)))
    /\ (rest = EmptyString \/ exists r, rest = String sep r).
Proof.
  induction s as [|c s (rest & Heq & Hno & Hrest)]; simpl.
  - exists EmptyString. simpl. auto.
  - destruct (Ascii.eqb_spec c sep) as [->|Hne].
    + exists (String sep s). simpl. repeat split; [tauto | right; now exists s].
    + pose proof (split_not_nil sep s) as Hnn.
      destruct (split sep s) as [|x r]; [contradiction|]. simpl in *.
      exists rest. repeat split; [now rewrite <- Heq | | exact Hrest].
      intros [H|H]; [congruence | contradiction].
Qed.

(** The snippet of one entry. *)
Lemma snippet_of_spec (query : string) (doc : PrimeVueDoc) :
  exists lines : list string,
    Selected (fun line => Substring (toLowerCase query) (toLowerCase line))
             (split "010" (value (content doc))) lines
    /\ snippet_of (toLowerCase query) doc
       = match firstn 3 lines with
         | [] => (title doc ++ " documentation")%string
         | first3 => join nl first3
         end.
Proof.
  eexists. split.
  - apply Selected_filter with
      (f := fun line => includes (toLowerCase line) (toLowerCase query)).
    intros line. apply includes_iff.
  - reflexivity.
Qed.

(** C8: every document of the collection that passes the component
    filter and matches the query has its entry among the results, and every
    result is the entry of such a document.  The snippet of an entry is made
    of the lines of the body (cut at newlines) that contain the query
    case-insensitively: the first three of them at most, in their order,
    joined by newlines; when no line contains the query the snippet is the
    title followed by [ documentation]. *)
Theorem search_snippet_first_three_lines :
  forall (docs : DocStore) (query : string) (component : option string),
    (forall key doc,
       In (key, doc) docs -> Passes component doc -> Matches query doc ->
       In (entry_of query (key, doc)) (search_results docs query component))
    /\ Forall (fun e =>
                 exists key doc,
                   In (key, doc) docs /\ Passes component doc
                   /\ Matches query doc /\ e = entry_of query (key, doc))
              (search_results docs query component)
    /\ (forall key doc,
          exists lines : list string,
            Selected (fun line => Substring (toLowerCase query) (toLowerCase line))
                     (split "010" (value (content doc))) lines
            /\ ResultEntry.snippet (entry_of query (key, doc))
               = match firstn 3 lines with
                 | [] => (title doc ++ " documentation")%string
                 | first3 => join nl first3
                 end).
Proof.
  intros docs query component.
  pose proof (kept_docs_Selected docs query component) as Hsel.
  split; [|split].
  - intros key doc Hin Hp Hm. rewrite search_results_partition.
    apply (in_map (entry_of query)).
    apply (Permutation_in _ (Permutation_sym (filter_partition_perm _ _))).
    apply (Selected_In _ _ _ _ Hsel). now split.
  - apply Forall_forall. intros e He.
    rewrite search_results_partition in He.
    apply in_map_iff in He as ([key doc] & <- & Hin).
    apply (Permutation_in _ (filter_partition_perm _ _)) in Hin.
    apply (Selected_In _ _ _ _ Hsel) in Hin as (Hdocs & Hp & Hm).
    now exists key, doc.
  - intros key doc. apply snippet_of_spec.
Qed.

(** ** The insertion-ordered map *)

Section JsMapFacts.
Context {V : Type}.
Implicit Types (m : JsMap V) (k : string) (v : V).

Lemma Map_get_set_eq m k v : Map_get (Map_set m k v) k = Some v.
Proof.
  induction m as [|[k' v'] m IH]; simpl.
  - now rewrite String.eqb_refl.
  - destruct (String.eqb k' k) eqn:E; simpl.
    + now rewrite String.eqb_refl.
    + now rewrite E.
Qed.

Lemma Map_get_set_neq m k k' v :
  k <> k' -> Map_get (Map_set m k v) k' = Map_get m k'.
Proof.
  intros Hne. induction m as [|[k0 v0] m IH]; simpl.
  - now apply String.eqb_neq in Hne as ->.
  - destruct (String.eqb_spec k0 k) as [->|Hk]; simpl.
    + now apply String.eqb_neq in Hne as ->.
    + now rewrite IH.
Qed.

Lemma Map_set_set m k v w : Map_set (Map_set m k v) k w = Map_set m k w.
Proof.
  induction m as [|[k0 v0] m IH]; simpl.
  - now rewrite String.eqb_refl.
  - destruct (String.eqb k0 k) eqn:E; simpl.
    + now rewrite String.eqb_refl.
    + now rewrite E, IH.
Qed.

Lemma Map_get_None m k : Map_get m k = None <-> ~ In k (map fst m).
Proof.
  induction m as [|[k0 v0] m IH]; simpl; [tauto|].
  destruct (String.eqb_spec k0 k) as [->|Hk].
  - split; [discriminate | tauto].
  - rewrite IH. tauto.
Qed.

Lemma Map_get_In m k v : Map_get m k = Some v -> In (k, v) m.
Proof.
  induction m as [|[k0 v0] m IH]; simpl; [discriminate|].
  destruct (String.eqb_spec k0 k) as [->|Hk].
  - intros [= ->]. now left.
  - intros H. right. now apply IH.
Qed.

Lemma In_Map_get m k v :
  NoDup (map fst m) -> In (k, v) m -> Map_get m k = Some v.
Proof.
  induction m as [|[k0 v0] m IH]; simpl; [tauto|].
  intros Hnd [H|H].
  - injection H as -> ->. now rewrite String.eqb_refl.
  - inversion Hnd as [|? ? Hnotin Hnd']; subst.
    destruct (String.eqb_spec k0 k) as [->|Hk]; [|now apply IH].
    exfalso. apply Hnotin. now apply (in_map fst) in H.
Qed.

Lemma Map_set_keys m k v :
  map fst (Map_set m k v)
  = if Map_has m k then map fst m else map fst m ++ [k].
Proof.
  unfold Map_has. induction m as [|[k0 v0] m IH]; simpl; [reflexivity|].
  destruct (String.eqb_spec k0 k) as [->|Hk]; simpl; [reflexivity|].
  rewrite IH. now destruct (Map_get m k).
Qed.

Lemma Map_set_keys_NoDup m k v :
  NoDup (map fst m) -> NoDup (map fst (Map_set m k v)).
Proof.
  intros Hnd. rewrite Map_set_keys. unfold Map_has.
  destruct (Map_get m k) eqn:E; [exact Hnd|].
  apply Map_get_None in E.
  apply NoDup_app; [exact Hnd | repeat constructor; auto |].
  intros x Hx [<-|[]]. contradiction.
Qed.

Lemma Map_set_keys_In m k v k' :
  In k' (map fst (Map_set m k v)) <-> In k' (map fst m) \/ k' = k.
Proof.
  rewrite Map_set_keys. unfold Map_has. destruct (Map_get m k) eqn:E.
  - apply Map_get_In, (in_map fst) in E. simpl in E.
    split; [tauto | intros [H| ->]; auto].
  - rewrite in_app_iff. simpl. intuition.
Qed.
End JsMapFacts.

(** ** Code-unit order *)

Lemma ascii_compare_eq (c d : ascii) : Ascii.compare c d = Eq -> c = d.
Proof. apply Ascii.compare_eq_iff. Qed.

Lemma string_compare_le (a b : string) : String.compare a b <> Gt <-> lex_le a b.
Proof.
  revert b; induction a as [|c a IH]; intros [|d b]; simpl.
  - split; [constructor | discriminate].
  - split; [constructor | discriminate].
  - split; [congruence | inversion 1].
  - destruct (Ascii.compare c d) eqn:E.
    + apply ascii_compare_eq in E as ->. rewrite IH.
      split; [now constructor | inversion 1; subst; [lia | assumption]].
    + unfold Ascii.compare in E. apply N.compare_lt_iff in E.
      split; [now constructor | discriminate].
    + unfold Ascii.compare in E. apply N.compare_gt_iff in E.
      split; [congruence | inversion 1; subst; lia].
Qed.

Lemma codeUnitCompare_le (a b : string) : codeUnitCompare a b <= 0 <-> lex_le a b.
Proof.
  rewrite <- string_compare_le. unfold codeUnitCompare.
  destruct (String.compare a b); split; try lia; try congruence; discriminate.
Qed.

Lemma codeUnitCompare_total (a b : string) :
  0 < codeUnitCompare a b -> codeUnitCompare b a <= 0.
Proof.
  unfold codeUnitCompare. rewrite (String.compare_antisym a b).
  destruct (String.compare b a); simpl; lia.
Qed.

Lemma lex_le_trans (a b c : string) : lex_le a b -> lex_le b c -> lex_le a c.
Proof.
  intros Hab; revert c; induction Hab as [s|x y s t Hlt|x s t Hst IH];
    intros c Hbc.
  - constructor.
  - inversion Hbc; subst; constructor; lia.
  - inversion Hbc; subst; [now constructor|]. apply lex_le_eq. now apply IH.
Qed.

Lemma default_sort_sorted (l : list string) :
  StronglySorted lex_le (Array_sort codeUnitCompare l).
Proof.
  apply Sorted_StronglySorted; [exact lex_le_trans|].
  pose proof (Array_sort_sorted codeUnitCompare codeUnitCompare_total l) as H.
  induction H as [|x r Hr IH Hhd]; constructor; [exact IH|].
  destruct Hhd; constructor. now apply codeUnitCompare_le.
Qed.

(** ** Listing by category *)

Lemma categories_loop_cons category key doc rest m :
  other_category category (category_of doc) = false ->
  categories_loop category ((key, doc) :: rest) m
  = categories_loop category rest (push_title m (category_of doc) (title doc)).
Proof.
  intros H. cbn [categories_loop]. rewrite H. f_equal.
  unfold push_title, Map_has.
  destruct (Map_get m (category_of doc)) as [arr|] eqn:E.
  - now rewrite E.
  - rewrite Map_get_set_eq. simpl. apply Map_set_set.
Qed.

Lemma total_items_set (m : JsMap (list string)) c arr :
  (total_items (Map_set m c arr) + List.length (or_nil (Map_get m c))
   = total_items m + List.length arr)%nat.
Proof.
  unfold total_items. induction m as [|[k v] m IH]; simpl; [lia|].
  destruct (String.eqb k c); simpl; lia.
Qed.

Lemma total_items_push m c t :
  total_items (push_title m c t) = S (total_items m).
Proof.
  unfold push_title.
  pose proof (total_items_set m c (or_nil (Map_get m c) ++ [t])) as H.
  rewrite length_app in H. simpl in H. lia.
Qed.

Lemma loop_keys_NoDup docs m :
  NoDup (map fst m) -> NoDup (map fst (categories_loop None docs m)).
Proof.
  revert m; induction docs as [|[key doc] docs IH]; intros m Hnd; [exact Hnd|].
  rewrite categories_loop_cons by reflexivity.
  apply IH, Map_set_keys_NoDup, Hnd.
Qed.

Lemma loop_keys_In docs m cat :
  In cat (map fst (categories_loop None docs m))
  <-> In cat (map fst m)
      \/ exists key doc, In (key, doc) docs /\ category_of doc = cat.
Proof.
  revert m; induction docs as [|[key doc] docs IH]; intros m.
  - simpl. split; [auto | intros [H|(? & ? & [] & _)]; exact H].
  - rewrite categories_loop_cons by reflexivity.
    rewrite IH. unfold push_title. rewrite Map_set_keys_In. split.
    + intros [[H| ->]|(k & d & Hin & Hc)]; auto.
      * right. exists key, doc. split; [now left | reflexivity].
      * right. exists k, d. split; [now right | exact Hc].
    + intros [H|(k & d & [Heq|Hin] & Hc)]; auto.
      * injection Heq as -> ->. auto.
      * right. now exists k, d.
Qed.

Lemma loop_get docs m cat :
  or_nil (Map_get (categories_loop None docs m) cat)
  = or_nil (Map_get m cat) ++ titles_in cat docs.
Proof.
  revert m; induction docs as [|[key doc] docs IH]; intros m.
  - simpl. now rewrite app_nil_r.
  - rewrite categories_loop_cons by reflexivity. rewrite IH.
    unfold titles_in, push_title. cbn [filter snd].
    destruct (String.eqb_spec (category_of doc) cat) as [->|Hne].
    + rewrite Map_get_set_eq. simpl. now rewrite <- app_assoc.
    + now rewrite Map_get_set_neq.
Qed.

Lemma loop_total docs m :
  total_items (categories_loop None docs m)
  = (total_items m + List.length docs)%nat.
Proof.
  revert m; induction docs as [|[key doc] docs IH]; intros m; [simpl; lia|].
  rewrite categories_loop_cons by reflexivity.
  rewrite IH, total_items_push. simpl. lia.
Qed.

Lemma category_groups_keys docs :
  map fst (category_groups docs None) = map fst (categories_loop None docs []).
Proof. unfold category_groups. rewrite map_map. reflexivity. Qed.

Lemma category_groups_In docs cat titles :
  In (cat, titles) (category_groups docs None) ->
  titles = Array_sort codeUnitCompare (titles_in cat docs).
Proof.
  unfold category_groups. intros H.
  apply in_map_iff in H as ([c raw] & Heq & Hin). simpl in Heq.
  injection Heq as -> <-.
  apply In_Map_get in Hin; [|apply loop_keys_NoDup; constructor].
  pose proof (loop_get docs [] cat) as Hget. rewrite Hin in Hget.
  simpl in Hget. now rewrite Hget.
Qed.

Lemma category_of_cases (doc : PrimeVueDoc) :
  (first_segment doc = EmptyString -> category_of doc = "Unknown")
  /\ (first_segment doc <> EmptyString -> category_of doc = first_segment doc).
Proof.
  unfold category_of, or_else.
  destruct (String.eqb_spec (first_segment doc) EmptyString); split; congruence.
Qed.

(** C9: ListCategories() without a filter yields one group per distinct
    category that occurs in the corpus, where the category of a document is
    the first path segment of [metadata.file] (what stands before its first
    slash, or all of it when it has none), or [Unknown] when that segment
    is empty; the item counts of the groups add up to the number of
    documents; each group holds the titles of its documents sorted in
    lexicographic (code-unit) order; and the reply lists every group with its
    name, its item count and its titles. *)
Theorem list_categories_groups_partition_corpus :
  forall docs : DocStore,
    let groups := category_groups docs None in
    NoDup (map fst groups)
    /\ (forall cat, In cat (map fst groups)
          <-> exists key doc, In (key, doc) docs /\ category_of doc = cat)
    /\ (forall doc,
          (first_segment doc = EmptyString -> category_of doc = "Unknown")
          /\ (first_segment doc <> EmptyString
              -> category_of doc = first_segment doc))
    /\ (forall doc,
          exists rest,
            file (metadata doc) = (first_segment doc ++ rest)%string
            /\ ~ In "/"%char (list_ascii_of_string (first_segment doc))
            /\ (rest = EmptyString \/ exists r, rest = String "/" r))
    /\ list_sum (map (fun g => List.length (snd g)) groups) = List.length docs
    /\ (forall cat titles, In (cat, titles) groups ->
          StronglySorted lex_le titles
          /\ exists members : DocStore,
               Selected (fun kd => category_of (snd kd) = cat) docs members
               /\ Permutation titles (map (fun kd => title (snd kd)) members))
    /\ list_categories docs None
       = Return (Tool.reply
           ("PrimeVue Documentation Categories:" ++ nl ++ nl
            ++ join (nl ++ nl)
                 (map (fun g =>
                         "**" ++ fst g ++ "** ("
                         ++ Number_toString (List.length (snd g)) ++ " items)"
                         ++ nl ++ join nl (map (fun c => "  - " ++ c) (snd g)))
                      groups)))%string.
Proof.
  intros docs groups. subst groups. repeat split.
  - rewrite category_groups_keys. apply loop_keys_NoDup. constructor.
  - rewrite category_groups_keys, loop_keys_In. intros [[]|H]; exact H.
  - rewrite category_groups_keys, loop_keys_In. auto.
  - apply category_of_cases.
  - apply category_of_cases.
  - intros doc. apply (split_hd_spec "/" (file (metadata doc))).
  - unfold category_groups. rewrite map_map. cbn [snd].
    erewrite map_ext; [|intros g; apply Array_sort_length].
    apply (loop_total docs []).
  - apply category_groups_In in H as ->. apply default_sort_sorted.
  - apply category_groups_In in H as ->.
    eexists. split.
    + apply Selected_filter with
        (f := fun kd => String.eqb (category_of (snd kd)) cat).
      intros kd. apply String.eqb_eq.
    + apply Array_sort_perm.
Qed.

(** ** The document store *)

Lemma loadDocs_keys_are_ids (parsed : list PrimeVueDoc) (k : string)
    (doc : PrimeVueDoc) :
  Map_get (loadDocs parsed) k = Some doc -> id doc = k /\ In doc parsed.
Proof.
  unfold loadDocs.
  assert (H : forall (m : DocStore),
             (forall k d, Map_get m k = Some d -> id d = k /\ In d parsed) ->
             forall l, incl l parsed ->
             forall k d, Map_get (fold_left (fun docs doc => Map_set docs (id doc) doc) l m) k
                         = Some d -> id d = k /\ In d parsed).
  { intros m Hm l; revert m Hm; induction l as [|x l IH]; intros m Hm Hl;
      [exact Hm|].
    simpl. apply IH; [|intros y Hy; apply Hl; now right].
    intros k0 d. destruct (String.eqb_spec (id x) k0) as [<-|Hne].
    - rewrite Map_get_set_eq. intros [= <-]. split; [reflexivity|].
      apply Hl. now left.
    - rewrite Map_get_set_neq by exact Hne. apply Hm. }
  apply (H [] ltac:(discriminate) parsed (incl_refl _)).
Qed.

(** ** Component lookup *)

Lemma find_by_title_In docs component doc :
  find_by_title docs component = Some doc ->
  (exists key, In (key, doc) docs)
  /\ toLowerCase (title doc) = toLowerCase component.
Proof.
  unfold find_by_title. intros H. apply find_some in H as [Hin Heq].
  apply String.eqb_eq in Heq. split; [|exact Heq].
  apply in_map_iff in Hin as ([key d] & <- & Hin). now exists key.
Qed.

Lemma lookup_component_In docs component doc :
  lookup_component docs component = Some doc -> exists key, In (key, doc) docs.
Proof.
  unfold lookup_component.
  destruct (find_by_title docs component) as [d|] eqn:E.
  - intros [= <-]. now apply find_by_title_In in E.
  - intros H. apply Map_get_In in H. eauto.
Qed.

(** The selection order of [get_component_api]: the first document, in
    collection order, whose title equals the argument up to case; failing
    that, the document stored under the components key. *)
Lemma lookup_component_strategy docs component :
  (forall doc, find_by_title docs component = Some doc ->
     lookup_component docs component = Some doc)
  /\ ((forall key doc, In (key, doc) docs ->
         toLowerCase (title doc) <> toLowerCase component) ->
      lookup_component docs component
      = Map_get docs ("/primevue/components/" ++ toLowerCase component)).
Proof.
  unfold lookup_component. split.
  - now intros doc ->.
  - intros Hnone. destruct (find_by_title docs component) as [d|] eqn:E;
      [|reflexivity].
    apply find_by_title_In in E as [[key Hin] Heq].
    now apply Hnone in Hin.
Qed.

Lemma group_step_Throw (l : list Available.t) (e : JsError) :
  fold_left group_step l (Throw e) = Throw e.
Proof. induction l as [|x l IH]; simpl; [reflexivity | exact IH]. Qed.

Lemma grouping_throws_only_TypeError (l : list Available.t) (o : JsObject.t) :
  (exists o', fold_left group_step l (Return o) = Return o')
  \/ fold_left group_step l (Return o) = Throw TypeError.
Proof.
  revert o; induction l as [|x l IH]; intros o; simpl; [left; eauto|].
  destruct (JsObject.get _ (Available.category x)) as [arr| |];
    [apply IH | right; apply group_step_Throw ..].
Qed.

Lemma get_component_api_no_Error lc docs component msg :
  get_component_api lc docs component <> Throw (Error msg).
Proof.
  unfold get_component_api, not_found_listing, componentsByCategory.
  destruct (lookup_component docs component); [discriminate|].
  destruct (grouping_throws_only_TypeError (availableComponents lc docs)
              JsObject.empty)
    as [[o' ->]| ->]; discriminate.
Qed.

(** ** The resource *)

(** The read callback looks up the id /primevue/docPath.  When the
    loaded store holds a document under that id (and then it is the document
    with that [id]), the raw body is returned with mime type text/markdown;
    the callback raises, with the not-found error, exactly when the id is
    absent. *)
Lemma resource_callback_not_found_exactly_when_absent :
  forall (parsed : list PrimeVueDoc) (uri_href docPath : string),
    let docs := loadDocs parsed in
    let docId := ("/primevue/" ++ docPath)%string in
    (forall doc, Map_get docs docId = Some doc ->
       id doc = docId
       /\ resource_primevue_docs docs uri_href docPath
          = Return {| Resource.contents :=
                        [ {| Resource.uri := uri_href;
                             Resource.mimeType := "text/markdown";
                             Resource.text := value (content doc) |} ] |})
    /\ (Map_get docs docId = None ->
        resource_primevue_docs docs uri_href docPath
        = Throw (Error ("Documentation not found: " ++ docPath)))
    /\ ((exists e, resource_primevue_docs docs uri_href docPath = Throw e)
        <-> Map_get docs docId = None).
Proof.
  intros parsed uri_href docPath docs docId.
  unfold resource_primevue_docs. fold docId. repeat split.
  - now apply loadDocs_keys_are_ids in H.
  - now rewrite H.
  - intros ->. reflexivity.
  - destruct (Map_get docs docId); [intros [e He]; discriminate | reflexivity].
  - intros ->. eauto.
Qed.

(** C5, at a failing input: the resource is not the only operation that
    fails hard on something that is not there.  On the store with a document
    kept under the directory [constructor], reading the absent resource
    [slider] raises the not-found error as designed, and asking
    [get_component_api] for the unknown component [slider] raises too, with a
    [TypeError], where the listing was to be returned. *)
Theorem component_lookup_fails_hard_when_not_found_too :
  forall (localeCompare : string -> string -> Z) (uri_href : string),
    Map_get Inherited_corpus.docs "/primevue/slider" = None
    /\ resource_primevue_docs Inherited_corpus.docs uri_href "slider"
       = Throw (Error "Documentation not found: slider")
    /\ lookup_component Inherited_corpus.docs "slider" = None
    /\ get_component_api localeCompare Inherited_corpus.docs "slider"
       = Throw TypeError.
Proof. intros lc uri_href. repeat split. Qed.

(** ** The API reference of a found component *)

Lemma api_section_spec (doc : PrimeVueDoc) :
  let body := value (content doc) in
  (Substring "### API" body ->
     exists pre post,
       FirstOccurrence "### API" body pre post
       /\ api_section doc = ("### API" ++ post)%string)
  /\ (~ Substring "### API" body -> api_section doc = body).
Proof.
  intros body. unfold api_section. fold body. split.
  - intros Hsub. apply includes_iff in Hsub.
    unfold includes, indexOf in Hsub. apply negb_true_iff, Z.eqb_neq in Hsub.
    destruct (indexOf_from_found "### API" body 0 ltac:(lia) Hsub)
      as (k & Hk & Hlen & Hpre & Hmin).
    unfold indexOf. rewrite Hk.
    replace (0 + Z.of_nat k >? -1) with true by (symmetry; apply Z.gtb_lt; lia).
    unfold substring. replace (Z.to_nat (Z.max 0 (0 + Z.of_nat k))) with k by lia.
    apply prefix_iff in Hpre as [post Hpost].
    exists (take k body), post. split; [split|exact Hpost].
    + now rewrite <- Hpost, take_drop.
    + intros pre' post' Heq. rewrite take_length by exact Hlen.
      destruct (Nat.le_gt_cases k (String.length pre')) as [|Hlt]; [assumption|].
      specialize (Hmin _ Hlt). rewrite Heq, drop_append in Hmin.
      assert (Ht : prefix "### API" ("### API" ++ post') = true)
        by (apply prefix_iff; now exists post').
      congruence.
  - intros Hno. apply includes_false_iff in Hno.
    unfold includes in Hno. apply negb_false_iff, Z.eqb_eq in Hno.
    now rewrite Hno.
Qed.

(** C7: when a document is found, the reply is the heading with the
    title, the category line with the first path segment of
    [metadata.file], the tag line with the tags, and then the body from the
    first occurrence of the marker [### API] on; a body without the marker
    is given whole. *)
Theorem get_component_api_found_reply :
  forall (localeCompare : string -> string -> Z) (docs : DocStore)
         (component : string) (doc : PrimeVueDoc),
    lookup_component docs component = Some doc ->
    exists section rest : string,
      get_component_api localeCompare docs component
      = Return (Tool.reply
          ("# " ++ title doc ++ " API Reference" ++ nl
           ++ "Category: " ++ first_segment doc ++ nl
           ++ "Tags: " ++ join ", " (tags doc) ++ nl ++ nl ++ section))
      /\ (Substring "### API" (value (content doc)) ->
          exists pre post,
            FirstOccurrence "### API" (value (content doc)) pre post
            /\ section = ("### API" ++ post)%string)
      /\ (~ Substring "### API" (value (content doc)) ->
          section = value (content doc))
      /\ file (metadata doc) = (first_segment doc ++ rest)%string
      /\ ~ In "/"%char (list_ascii_of_string (first_segment doc))
      /\ (rest = EmptyString \/ exists r, rest = String "/" r).
Proof.
  intros lc docs component doc Hfound.
  destruct (split_hd_spec "/" (file (metadata doc))) as (rest & Hfile & Hno & Hrest).
  exists (api_section doc), rest.
  unfold get_component_api. rewrite Hfound.
  destruct (api_section_spec doc) as [Hyes Hnone].
  repeat split; auto.
Qed.

Lemma get_component_api_found_reply_witness :
  lookup_component Example_corpus.docs "Button" = Some Example_corpus.button
  /\ exists section rest : string,
      get_component_api codeUnitCompare Example_corpus.docs "Button"
      = Return (Tool.reply
          ("# " ++ title Example_corpus.button ++ " API Reference" ++ nl
           ++ "Category: " ++ first_segment Example_corpus.button ++ nl
           ++ "Tags: " ++ join ", " (tags Example_corpus.button) ++ nl ++ nl
           ++ section))
      /\ (Substring "### API" (value (content Example_corpus.button)) ->
          exists pre post,
            FirstOccurrence "### API" (value (content Example_corpus.button))
                            pre post
            /\ section = ("### API" ++ post)%string)
      /\ (~ Substring "### API" (value (content Example_corpus.button)) ->
          section = value (content Example_corpus.button))
      /\ file (metadata Example_corpus.button)
         = (first_segment Example_corpus.button ++ rest)%string
      /\ ~ In "/"%char (list_ascii_of_string (first_segment Example_corpus.button))
      /\ (rest = EmptyString \/ exists r, rest = String "/" r).
Proof.
  split; [reflexivity|].
  apply (get_component_api_found_reply codeUnitCompare Example_corpus.docs
           "Button" Example_corpus.button).
  reflexivity.
Defined.

Example api_reference_button :
  api_reference Example_corpus.button
  = ("# button API Reference" ++ nl ++ "Category: components" ++ nl
     ++ "Tags: components" ++ nl ++ nl ++ "### API" ++ nl ++ "props: label")%string.
Proof. reflexivity. Qed.

(** ** Documents without a leading directory *)

Lemma first_segment_empty (doc : PrimeVueDoc) :
  file (metadata doc) = EmptyString
  \/ (exists rest, file (metadata doc) = String "/" rest) ->
  first_segment doc = EmptyString.
Proof.
  unfold first_segment. intros [->|[rest ->]]; reflexivity.
Qed.

Lemma category_groups_member docs key doc :
  In (key, doc) docs ->
  exists titles,
    In (category_of doc, titles) (category_groups docs None)
    /\ In (title doc) titles.
Proof.
  intros Hin.
  assert (Hkey : In (category_of doc) (map fst (category_groups docs None))).
  { rewrite category_groups_keys, loop_keys_In. right. now exists key, doc. }
  apply in_map_iff in Hkey as ([cat titles] & Hcat & Hg). simpl in Hcat. subst cat.
  exists titles. split; [exact Hg|].
  apply category_groups_In in Hg as ->.
  apply (Permutation_in _ (Permutation_sym (Array_sort_perm _ _))).
  unfold titles_in.
  apply (in_map (fun kd => title (snd kd)) _ (key, doc)), filter_In.
  split; [exact Hin | apply String.eqb_refl].
Qed.

(** C10: for a found document whose [metadata.file] is empty or starts
    with a slash, the API reference prints an empty category after
    [Category: ], because the found branch takes the first path segment as
    it is; Search and ListCategories put the same document under
    [Unknown]. *)
Theorem found_branch_prints_empty_category :
  forall (localeCompare : string -> string -> Z) (docs : DocStore)
         (component : string) (doc : PrimeVueDoc),
    lookup_component docs component = Some doc ->
    (file (metadata doc) = EmptyString
     \/ exists rest, file (metadata doc) = String "/" rest) ->
    first_segment doc = EmptyString
    /\ get_component_api localeCompare docs component
       = Return (Tool.reply
           ("# " ++ title doc ++ " API Reference" ++ nl
            ++ "Category: " ++ nl
            ++ "Tags: " ++ join ", " (tags doc) ++ nl ++ nl ++ api_section doc))
    /\ (forall searchTerm key,
          ResultEntry.category (result_entry searchTerm key doc) = "Unknown")
    /\ exists titles,
         In ("Unknown", titles) (category_groups docs None)
         /\ In (title doc) titles.
Proof.
  intros lc docs component doc Hfound Hfile.
  pose proof (first_segment_empty doc Hfile) as Hseg.
  assert (Hcat : category_of doc = "Unknown")
    by (now apply category_of_cases).
  repeat split.
  - exact Hseg.
  - unfold get_component_api. rewrite Hfound. unfold api_reference.
    now rewrite Hseg.
  - intros t key. exact Hcat.
  - apply lookup_component_In in Hfound as [key Hin].
    rewrite <- Hcat. now apply category_groups_member with (key := key).
Qed.

Lemma found_branch_prints_empty_category_witness :
  lookup_component Rootless_corpus.docs "orphan" = Some Rootless_corpus.orphan
  /\ (file (metadata Rootless_corpus.orphan) = EmptyString
      \/ exists rest, file (metadata Rootless_corpus.orphan) = String "/" rest)
  /\ first_segment Rootless_corpus.orphan = EmptyString
  /\ get_component_api codeUnitCompare Rootless_corpus.docs "orphan"
     = Return (Tool.reply
         ("# " ++ title Rootless_corpus.orphan ++ " API Reference" ++ nl
          ++ "Category: " ++ nl
          ++ "Tags: " ++ join ", " (tags Rootless_corpus.orphan) ++ nl ++ nl
          ++ api_section Rootless_corpus.orphan))
  /\ (forall searchTerm key,
        ResultEntry.category (result_entry searchTerm key Rootless_corpus.orphan)
        = "Unknown")
  /\ exists titles,
       In ("Unknown", titles) (category_groups Rootless_corpus.docs None)
       /\ In (title Rootless_corpus.orphan) titles.
Proof.
  split; [reflexivity|].
  split; [right; exists "orphan.md"; reflexivity|].
  apply (found_branch_prints_empty_category codeUnitCompare Rootless_corpus.docs
           "orphan" Rootless_corpus.orphan).
  - reflexivity.
  - right. exists "orphan.md". reflexivity.
Defined.

Example rootless_renderings :
  api_reference Rootless_corpus.orphan
  = ("# orphan API Reference" ++ nl ++ "Category: " ++ nl ++ "Tags: " ++ nl ++ nl
     ++ "Orphan page")%string
  /\ map ResultEntry.category (search_results Rootless_corpus.docs "orphan" None)
     = ["Unknown"]
  /\ category_groups Rootless_corpus.docs None
     = [("components", ["button"]); ("Unknown", ["orphan"])].
Proof. repeat split. Qed.

(** ** The listing for an unknown component *)

Lemma group_step_plain (o : JsObject.t) (comp : Available.t) :
  existsb (String.eqb (Available.category comp)) JsObject.Object_prototype_keys
  = false ->
  group_step (Return o) comp
  = Return (push_title o (Available.category comp) (Available.title comp)).
Proof.
  intros Hplain. unfold group_step, JsObject.get, push_title.
  destruct (Map_get o (Available.category comp)) as [arr|] eqn:E.
  - cbn [JsObject.truthy]. now rewrite E.
  - rewrite Hplain. cbn [JsObject.truthy]. rewrite Map_get_set_eq.
    cbn [or_nil app]. now rewrite Map_set_set.
Qed.

Lemma grouping_plain (l : list Available.t) (o : JsObject.t) :
  Forall (fun comp =>
            existsb (String.eqb (Available.category comp))
                    JsObject.Object_prototype_keys = false) l ->
  fold_left group_step l (Return o)
  = Return (fold_left push_component l o).
Proof.
  intros H; revert o; induction H as [|x l Hx _ IH]; intros o; [reflexivity|].
  cbn [fold_left]. rewrite group_step_plain by exact Hx. apply IH.
Qed.

Lemma availableComponents_plain lc docs :
  plain_categories docs ->
  Forall (fun comp =>
            existsb (String.eqb (Available.category comp))
                    JsObject.Object_prototype_keys = false)
         (availableComponents lc docs).
Proof.
  intros Hplain. unfold availableComponents.
  eapply Permutation_Forall; [apply Permutation_sym, Array_sort_perm|].
  apply Forall_forall. intros comp Hin.
  apply in_map_iff in Hin as (d & <- & Hin).
  apply in_map_iff in Hin as ([key d'] & <- & Hin). simpl.
  now apply (Hplain key).
Qed.

(** On a store with plain categories an unknown component gets the
    listing, as a normal reply. *)
Lemma unknown_component_listing_when_plain lc docs component :
  plain_categories docs ->
  lookup_component docs component = None ->
  exists o,
    componentsByCategory lc docs = Return o
    /\ get_component_api lc docs component
       = Return (Tool.reply
           ("Component " ++ dquote ++ component ++ dquote ++ " not found." ++ nl
            ++ nl ++ "Available components:" ++ nl
            ++ join nl (map (render_available) (JsObject.entries o)))).
Proof.
  intros Hplain Hmiss. unfold get_component_api, not_found_listing.
  rewrite Hmiss. unfold componentsByCategory.
  rewrite grouping_plain by now apply availableComponents_plain.
  eexists. split; reflexivity.
Qed.

(** C3, at a failing input: with a document kept under the directory
    [constructor], the unknown component [slider] is found neither by title
    nor by key, and the handler raises a [TypeError] instead of returning
    the listing: the accumulator [{}] already answers [acc.constructor] with
    an inherited function, which has no [push]. *)
Theorem unknown_component_raises_on_inherited_category :
  forall localeCompare : string -> string -> Z,
    find_by_title Inherited_corpus.docs "slider" = None
    /\ Map_get Inherited_corpus.docs "/primevue/components/slider" = None
    /\ get_component_api localeCompare Inherited_corpus.docs "slider"
       = Throw TypeError.
Proof. intros lc. repeat split. Qed.

(** C4, at a failing input: with the categories [10] and [9], whatever
    order [localeCompare] gives them, the listing names group [9] before
    group [10], since [Object.entries] lists array-index keys first and by
    numeric value; lexicographically [10] comes before [9]. *)
Theorem listing_groups_out_of_order_on_numeric_categories :
  forall localeCompare : string -> string -> Z,
    lookup_component Numbered_corpus.docs "slider" = None
    /\ get_component_api localeCompare Numbered_corpus.docs "slider"
       = Return (Tool.reply
           ("Component " ++ dquote ++ "slider" ++ dquote ++ " not found." ++ nl
            ++ nl ++ "Available components:" ++ nl
            ++ "**9**: tips" ++ nl ++ "**10**: intro"))
    /\ lex_le "10" "9" /\ ~ lex_le "9" "10".
Proof.
  intros lc. split; [reflexivity|]. split.
  - unfold get_component_api.
    change (lookup_component Numbered_corpus.docs "slider") with (@None PrimeVueDoc).
    unfold not_found_listing, componentsByCategory, availableComponents.
    change (map snd Numbered_corpus.docs)
      with [Numbered_corpus.intro; Numbered_corpus.tips].
    cbn [map Array_sort sort_insert].
    destruct (by_category_then_title lc _ _ <=? 0); reflexivity.
  - split.
    + apply codeUnitCompare_le. vm_compute. discriminate.
    + intros H. apply codeUnitCompare_le in H. vm_compute in H. now apply H.
Qed.

(** *** What the listing does deliver *)

Lemma push_title_titles (m : JsMap (list string)) (c t : string) :
  Permutation (List.concat (map snd (push_title m c t))) (t :: List.concat (map snd m)).
Proof.
  unfold push_title. induction m as [|[k v] m IH]; simpl; [reflexivity|].
  destruct (String.eqb k c); simpl.
  - rewrite <- app_assoc. simpl. symmetry. apply Permutation_middle.
  - rewrite IH. symmetry. apply Permutation_middle.
Qed.

Lemma grouping_titles (l : list Available.t) (o : JsObject.t) :
  Permutation
    (List.concat (map snd (fold_left push_component l o)))
    (map Available.title l ++ List.concat (map snd o)).
Proof.
  revert o; induction l as [|x l IH]; intros o; simpl; [reflexivity|].
  unfold push_component at 2. rewrite IH, push_title_titles. symmetry.
  apply Permutation_middle.
Qed.

Lemma entries_perm (o : JsObject.t) : Permutation (JsObject.entries o) o.
Proof.
  unfold JsObject.entries. rewrite Array_sort_perm. apply filter_partition_perm.
Qed.

(** Without array-index keys, [Object.entries] follows creation order. *)
Lemma entries_creation_order (o : JsObject.t) :
  Forall (fun kv => JsObject.is_index (fst kv) = false) o ->
  JsObject.entries o = o.
Proof.
  intros H. unfold JsObject.entries.
  assert (Hidx : filter (fun kv => JsObject.is_index (fst kv)) o = []).
  { induction H as [|kv o Hkv _ IH]; simpl; [reflexivity | now rewrite Hkv]. }
  assert (Hrest : filter (fun kv => negb (JsObject.is_index (fst kv))) o = o).
  { clear Hidx. induction H as [|kv o Hkv _ IH]; simpl; [reflexivity|].
    rewrite Hkv. simpl. now rewrite IH. }
  now rewrite Hidx, Hrest.
Qed.

(** On a store with plain categories, the groups of the listing hold every
    document's title, once per document. *)
Lemma listing_titles_once lc docs o :
  plain_categories docs ->
  componentsByCategory lc docs = Return o ->
  Permutation (List.concat (map snd (JsObject.entries o)))
              (map (fun kd => title (snd kd)) docs).
Proof.
  intros Hplain Ho. unfold componentsByCategory in Ho.
  rewrite grouping_plain in Ho by now apply availableComponents_plain.
  injection Ho as <-.
  rewrite (Permutation_map snd (entries_perm _)) at 1.
  rewrite grouping_titles. simpl. rewrite app_nil_r.
  unfold availableComponents.
  rewrite (Permutation_map Available.title (Array_sort_perm _ _)).
  rewrite !map_map. reflexivity.
Qed.

(** *** Order of the listing under a consistent [localeCompare] *)

Lemma StronglySorted_filter {A : Type} (R : A -> A -> Prop) (f : A -> bool)
    (l : list A) :
  StronglySorted R l -> StronglySorted R (filter f l).
Proof.
  induction 1 as [|x l Hs IH Hx]; simpl; [constructor|].
  destruct (f x); [|exact IH]. constructor; [exact IH|].
  apply Forall_forall. intros y Hy. apply filter_In in Hy as [Hy _].
  revert y Hy. now apply Forall_forall.
Qed.

Lemma StronglySorted_map {A B : Type} (R : A -> A -> Prop) (R' : B -> B -> Prop)
    (f : A -> B) (l : list A) :
  (forall a b, In a l -> In b l -> R a b -> R' (f a) (f b)) ->
  StronglySorted R l -> StronglySorted R' (map f l).
Proof.
  intros Himp Hs. induction Hs as [|x l Hs IH Hx]; simpl; constructor.
  - apply IH. intros a b Ha Hb. apply Himp; now right.
  - apply Forall_forall. intros y Hy. apply in_map_iff in Hy as (a & <- & Ha).
    apply Himp; [now left | now right |].
    revert a Ha. now apply Forall_forall.
Qed.

Lemma StronglySorted_app_drop {A : Type} (R : A -> A -> Prop) (l1 l2 : list A)
    (x : A) :
  StronglySorted R (l1 ++ x :: l2) -> StronglySorted R (l1 ++ l2).
Proof.
  induction l1 as [|y l1 IH]; simpl; intros H; inversion H as [|? ? Hs Hall]; subst.
  - exact Hs.
  - constructor; [now apply IH|].
    apply Forall_app in Hall as [H1 H2]. apply Forall_app. split; [exact H1|].
    now inversion H2.
Qed.

Lemma Permutation_filter {A : Type} (f : A -> bool) (l l' : list A) :
  Permutation l l' -> Permutation (filter f l) (filter f l').
Proof.
  induction 1 as [|x l l' _ IH|x y l|l l' l'' _ IH1 _ IH2]; simpl.
  - constructor.
  - destruct (f x); [now constructor | exact IH].
  - destruct (f x), (f y); try reflexivity. apply perm_swap.
  - now transitivity (filter f l').
Qed.

Lemma grouping_keys_NoDup (l : list Available.t) (o : JsObject.t) :
  NoDup (map fst o) -> NoDup (map fst (fold_left push_component l o)).
Proof.
  revert o; induction l as [|x l IH]; intros o Hnd; [exact Hnd|].
  simpl. apply IH. now apply Map_set_keys_NoDup.
Qed.

Lemma grouping_get (l : list Available.t) (o : JsObject.t) (cat : string) :
  or_nil (Map_get (fold_left push_component l o) cat)
  = or_nil (Map_get o cat) ++ available_in cat l.
Proof.
  revert o; induction l as [|x l IH]; intros o.
  - simpl. now rewrite app_nil_r.
  - cbn [fold_left]. rewrite IH. unfold available_in, push_component, push_title.
    cbn [filter].
    destruct (String.eqb_spec (Available.category x) cat) as [->|Hne].
    + rewrite Map_get_set_eq. simpl. now rewrite <- app_assoc.
    + now rewrite Map_get_set_neq.
Qed.

Lemma grouping_nonempty (l : list Available.t) (o : JsObject.t) :
  (forall cat titles, Map_get o cat = Some titles -> titles <> []) ->
  forall cat titles,
    Map_get (fold_left push_component l o) cat = Some titles -> titles <> [].
Proof.
  revert o; induction l as [|x l IH]; intros o Ho; [exact Ho|].
  cbn [fold_left]. apply IH. intros cat titles.
  unfold push_component, push_title.
  destruct (String.eqb_spec (Available.category x) cat) as [->|Hne].
  - rewrite Map_get_set_eq. intros [= <-].
    now destruct (or_nil (Map_get o cat)).
  - rewrite Map_get_set_neq by exact Hne. apply Ho.
Qed.

Lemma grouping_keys_sorted (R : string -> string -> Prop)
    (l : list Available.t) (o : JsObject.t) :
  StronglySorted R (map fst o ++ map Available.category l) ->
  StronglySorted R (map fst (fold_left push_component l o)).
Proof.
  revert o; induction l as [|x l IH]; intros o Hs.
  - simpl in *. now rewrite app_nil_r in Hs.
  - cbn [fold_left]. apply IH. unfold push_component, push_title.
    rewrite Map_set_keys. cbn [map] in Hs.
    destruct (Map_has o (Available.category x)).
    + now apply StronglySorted_app_drop in Hs.
    + now rewrite <- app_assoc.
Qed.

Section ListingOrder.
Variable localeCompare : string -> string -> Z.
Hypothesis localeCompare_consistent : consistent_comparator localeCompare.

Let lc_le (a b : string) : Prop := localeCompare a b <= 0.

Lemma lc_swap (a b : string) :
  Z.sgn (localeCompare b a) = - Z.sgn (localeCompare a b).
Proof. apply localeCompare_consistent. Qed.

Lemma lc_trans (a b c : string) : lc_le a b -> lc_le b c -> lc_le a c.
Proof. apply localeCompare_consistent. Qed.

Lemma lc_refl (a : string) : localeCompare a a = 0.
Proof. pose proof (lc_swap a a). lia. Qed.

Lemma lc_lt_le (a b c : string) :
  localeCompare a b < 0 -> localeCompare b c <= 0 -> localeCompare a c < 0.
Proof.
  intros Hab Hbc. destruct (Z.lt_ge_cases (localeCompare a c) 0) as [|Hac];
    [assumption|].
  assert (Hca : localeCompare c a <= 0) by (pose proof (lc_swap a c); lia).
  pose proof (lc_trans b c a Hbc Hca) as Hba. unfold lc_le in Hba.
  pose proof (lc_swap a b). lia.
Qed.

Lemma lc_le_lt (a b c : string) :
  localeCompare a b <= 0 -> localeCompare b c < 0 -> localeCompare a c < 0.
Proof.
  intros Hab Hbc. destruct (Z.lt_ge_cases (localeCompare a c) 0) as [|Hac];
    [assumption|].
  assert (Hca : localeCompare c a <= 0) by (pose proof (lc_swap a c); lia).
  pose proof (lc_trans c a b Hca Hab) as Hcb. unfold lc_le in Hcb.
  pose proof (lc_swap b c). lia.
Qed.

Lemma lc_eq_eq (a b c : string) :
  localeCompare a b = 0 -> localeCompare b c = 0 -> localeCompare a c = 0.
Proof.
  intros Hab Hbc.
  assert (H1 : localeCompare a c <= 0) by (apply (lc_trans a b c); unfold lc_le; lia).
  assert (H2 : localeCompare c a <= 0).
  { apply (lc_trans c b a); unfold lc_le.
    - pose proof (lc_swap b c). lia.
    - pose proof (lc_swap a b). lia. }
  pose proof (lc_swap a c). lia.
Qed.

Lemma by_category_then_title_total (a b : Available.t) :
  0 < by_category_then_title localeCompare a b ->
  by_category_then_title localeCompare b a <= 0.
Proof.
  unfold by_category_then_title.
  pose proof (lc_swap (Available.category a) (Available.category b)).
  pose proof (lc_swap (Available.title a) (Available.title b)).
  repeat match goal with |- context [?x =? 0] => destruct (Z.eqb_spec x 0) end; lia.
Qed.

Lemma by_category_then_title_trans (a b c : Available.t) :
  cmp_le (by_category_then_title localeCompare) a b ->
  cmp_le (by_category_then_title localeCompare) b c ->
  cmp_le (by_category_then_title localeCompare) a c.
Proof.
  unfold cmp_le, by_category_then_title.
  pose proof (lc_lt_le (Available.category a) (Available.category b)
                       (Available.category c)).
  pose proof (lc_le_lt (Available.category a) (Available.category b)
                       (Available.category c)).
  pose proof (lc_eq_eq (Available.category a) (Available.category b)
                       (Available.category c)).
  pose proof (lc_trans (Available.title a) (Available.title b)
                       (Available.title c)) as Ht. unfold lc_le in Ht.
  repeat match goal with |- context [?x =? 0] => destruct (Z.eqb_spec x 0) end;
    lia.
Qed.

Lemma availableComponents_sorted (docs : DocStore) :
  StronglySorted (cmp_le (by_category_then_title localeCompare))
                 (availableComponents localeCompare docs).
Proof.
  apply Sorted_StronglySorted.
  - intros a b c. apply by_category_then_title_trans.
  - apply Array_sort_sorted, by_category_then_title_total.
Qed.

Lemma cmp_le_category (a b : Available.t) :
  cmp_le (by_category_then_title localeCompare) a b ->
  lc_le (Available.category a) (Available.category b).
Proof.
  unfold cmp_le, by_category_then_title, lc_le.
  destruct (Z.eqb_spec (localeCompare (Available.category a)
                                      (Available.category b)) 0); lia.
Qed.

Lemma cmp_le_title (a b : Available.t) :
  Available.category a = Available.category b ->
  cmp_le (by_category_then_title localeCompare) a b ->
  lc_le (Available.title a) (Available.title b).
Proof.
  unfold cmp_le, by_category_then_title, lc_le. intros ->.
  now rewrite lc_refl.
Qed.

(** X13: on a store whose categories are neither inherited property names
    nor array indices, and with a consistent [localeCompare], the listing
    for an unknown component has its groups in
    [localeCompare] order of their names, one group per category, and in
    each group the titles of that category in [localeCompare] order. *)
Lemma listing_sorted_when_plain (docs : DocStore) (component : string) :
  plain_categories docs -> unindexed_categories docs ->
  lookup_component docs component = None ->
  exists groups : list (string * list string),
    get_component_api localeCompare docs component
    = Return (Tool.reply
        ("Component " ++ dquote ++ component ++ dquote ++ " not found." ++ nl
         ++ nl ++ "Available components:" ++ nl
         ++ join nl (map (fun g => "**" ++ fst g ++ "**: " ++ join ", " (snd g))
                         groups)))%string
    /\ NoDup (map fst groups)
    /\ StronglySorted lc_le (map fst groups)
    /\ Forall (fun g => StronglySorted lc_le (snd g)) groups
    /\ (forall cat titles, In (cat, titles) groups ->
          Permutation titles (titles_in cat docs))
    /\ Permutation (List.concat (map snd groups))
                   (map (fun kd => title (snd kd)) docs).
Proof.
  intros Hplain Hunidx Hmiss.
  destruct (unknown_component_listing_when_plain localeCompare docs component
              Hplain Hmiss) as (o & Ho & Hreply).
  pose proof (listing_titles_once localeCompare docs o Hplain Ho) as Honce.
  pose proof Ho as Hfold. unfold componentsByCategory in Hfold.
  rewrite grouping_plain in Hfold by now apply availableComponents_plain.
  injection Hfold as Hfold.
  assert (Hnd : NoDup (map fst o)).
  { rewrite <- Hfold. apply grouping_keys_NoDup. constructor. }
  assert (Hgroup : forall cat titles, In (cat, titles) o ->
            titles = available_in cat (availableComponents localeCompare docs)).
  { intros cat titles Hin. apply In_Map_get in Hin; [|exact Hnd].
    pose proof (grouping_get (availableComponents localeCompare docs)
                             JsObject.empty cat) as Hget.
    rewrite Hfold, Hin in Hget. exact Hget. }
  assert (Hkeys : forall cat, In cat (map fst o) ->
            exists key doc, In (key, doc) docs /\ category_of doc = cat).
  { intros cat Hin. apply in_map_iff in Hin as ([c titles] & <- & Hin).
    pose proof (Hgroup _ _ Hin) as Heq. simpl.
    assert (Hne : titles <> []).
    { apply In_Map_get in Hin; [|exact Hnd]. rewrite <- Hfold in Hin.
      revert Hin. apply grouping_nonempty. discriminate. }
    rewrite Heq in Hne. unfold available_in in Hne.
    destruct (filter _ _) as [|comp rest] eqn:Ef; [contradiction|].
    assert (Hc : In comp (filter (fun comp => String.eqb (Available.category comp) c)
                            (availableComponents localeCompare docs)))
      by (rewrite Ef; now left).
    apply filter_In in Hc as [Hc Hcat]. apply String.eqb_eq in Hcat.
    unfold availableComponents in Hc.
    apply (Permutation_in _ (Array_sort_perm _ _)) in Hc.
    apply in_map_iff in Hc as (d & <- & Hd).
    apply in_map_iff in Hd as ([key d'] & <- & Hd). now exists key, d'. }
  assert (Hentries : JsObject.entries o = o).
  { apply entries_creation_order, Forall_forall. intros [cat titles] Hin. simpl.
    destruct (Hkeys cat (in_map fst _ _ Hin)) as (key & doc & Hd & <-).
    now apply (Hunidx key). }
  rewrite Hentries in Hreply, Honce.
  exists o. repeat split; auto.
  - rewrite <- Hfold. apply grouping_keys_sorted. simpl.
    apply StronglySorted_map with (R := cmp_le (by_category_then_title localeCompare)).
    + intros a b _ _. apply cmp_le_category.
    + apply availableComponents_sorted.
  - apply Forall_forall. intros [cat titles] Hin. simpl.
    rewrite (Hgroup _ _ Hin). unfold available_in.
    apply StronglySorted_map with (R := cmp_le (by_category_then_title localeCompare)).
    + intros a b Ha Hb. apply filter_In in Ha as [_ Ha], Hb as [_ Hb].
      apply String.eqb_eq in Ha, Hb. apply cmp_le_title. congruence.
    + apply StronglySorted_filter, availableComponents_sorted.
  - intros cat titles Hin. rewrite (Hgroup _ _ Hin).
    unfold available_in, availableComponents, titles_in.
    etransitivity; [apply Permutation_map, Permutation_filter, Array_sort_perm|].
    rewrite !filter_map_swap, !map_map. reflexivity.
Qed.
End ListingOrder.

(** The code-unit order is one consistent comparator, and the corpus of
    the end-to-end example has plain, unindexed categories. *)
Lemma codeUnitCompare_consistent : consistent_comparator codeUnitCompare.
Proof.
  split.
  - intros a b. unfold codeUnitCompare.
    rewrite (String.compare_antisym b a). now destruct (String.compare a b).
  - intros a b c. rewrite !codeUnitCompare_le. apply lex_le_trans.
Qed.

Lemma example_corpus_plain :
  plain_categories Example_corpus.docs /\ unindexed_categories Example_corpus.docs.
Proof.
  split; intros key doc [H|[H|[]]]; injection H as <- <-; reflexivity.
Qed.

Lemma listing_sorted_when_plain_witness :
  consistent_comparator codeUnitCompare
  /\ plain_categories Example_corpus.docs
  /\ unindexed_categories Example_corpus.docs
  /\ lookup_component Example_corpus.docs "slider" = None
  /\ exists groups : list (string * list string),
       get_component_api codeUnitCompare Example_corpus.docs "slider"
       = Return (Tool.reply
           ("Component " ++ dquote ++ "slider" ++ dquote ++ " not found." ++ nl
            ++ nl ++ "Available components:" ++ nl
            ++ join nl (map (fun g => "**" ++ fst g ++ "**: " ++ join ", " (snd g))
                            groups)))%string
       /\ NoDup (map fst groups)
       /\ StronglySorted (fun a b => codeUnitCompare a b <= 0) (map fst groups)
       /\ Forall (fun g => StronglySorted (fun a b => codeUnitCompare a b <= 0)
                                          (snd g)) groups
       /\ (forall cat titles, In (cat, titles) groups ->
             Permutation titles (titles_in cat Example_corpus.docs))
       /\ Permutation (List.concat (map snd groups))
                      (map (fun kd => title (snd kd)) Example_corpus.docs).
Proof.
  split; [exact codeUnitCompare_consistent|].
  split; [apply example_corpus_plain|].
  split; [apply example_corpus_plain|].
  split; [reflexivity|].
  apply (listing_sorted_when_plain codeUnitCompare codeUnitCompare_consistent
           Example_corpus.docs "slider").
  - apply example_corpus_plain.
  - apply example_corpus_plain.
  - reflexivity.
Defined.

(** * Further properties of the server *)

(** ** Loading *)

Lemma string_length_append (a b : string) :
  String.length (a ++ b) = (String.length a + String.length b)%nat.
Proof. induction a as [|c a IH]; simpl; [reflexivity | now rewrite IH]. Qed.

Lemma endsWith_iff (s suffix : string) :
  endsWith s suffix = true <-> exists pre, s = (pre ++ suffix)%string.
Proof.
  unfold endsWith. rewrite andb_true_iff, Nat.leb_le, String.eqb_eq. split.
  - intros [_ H]. exists (take (String.length s - String.length suffix) s).
    rewrite <- H at 2. now rewrite take_drop.
  - intros [pre ->]. rewrite string_length_append. split; [lia|].
    replace (String.length pre + String.length suffix - String.length suffix)%nat
      with (String.length pre) by lia.
    apply drop_append.
Qed.

Section LoaderFacts.
Variable JSON_parse : string -> option PrimeVueDoc.

Let enter (docs : DocStore) (doc : PrimeVueDoc) : DocStore :=
  Map_set docs (id doc) doc.

Lemma json_documents_Directory (entries : list (string * FsNode)) :
  json_documents JSON_parse (Directory entries)
  = flat_map (entry_documents JSON_parse) entries.
Proof.
  cbn [json_documents].
  induction entries as [|[name node] rest IH]; [reflexivity|].
  cbn [flat_map]. rewrite <- IH. unfold entry_documents. cbn [fst snd].
  now destruct node.
Qed.

Lemma loadFile_fold (name : string) (content : option string) (docs : DocStore) :
  loadFile JSON_parse name content docs
  = fold_left enter (file_documents JSON_parse name content) docs.
Proof.
  unfold loadFile, file_documents.
  destruct (endsWith name ".json"); [|reflexivity].
  destruct content as [text|]; [|reflexivity].
  now destruct (JSON_parse text).
Qed.

(** The recursive traversal enters the documents that parse, one after the
    other in traversal order. *)
Lemma loadDocsRecursive_fold (node : FsNode) :
  forall docs,
    loadDocsRecursive JSON_parse node docs
    = fold_left enter (json_documents JSON_parse node) docs.
Proof.
  induction node as [content|entries IH| |] using FsNode_tree_ind;
    intros docs; try reflexivity.
  rewrite json_documents_Directory. cbn [loadDocsRecursive].
  revert docs. induction IH as [|[name node] rest Hnode _ IHrest]; intros docs;
    [reflexivity|].
  cbn [flat_map]. rewrite fold_left_app, <- IHrest. f_equal.
  unfold entry_documents. cbn [fst snd] in *.
  destruct node; try reflexivity.
  - apply loadFile_fold.
  - apply Hnode.
Qed.

Lemma loadDocsFrom_loadDocs (root : FsNode) :
  loadDocsFrom JSON_parse root = loadDocs (json_documents JSON_parse root).
Proof. apply loadDocsRecursive_fold. Qed.

Lemma file_documents_In name content doc :
  In doc (file_documents JSON_parse name content)
  <-> exists stem text,
        name = (stem ++ ".json")%string /\ content = Some text
        /\ JSON_parse text = Some doc.
Proof.
  unfold file_documents. destruct (endsWith name ".json") eqn:E.
  - apply endsWith_iff in E as [stem ->].
    destruct content as [text|].
    + destruct (JSON_parse text) as [d|] eqn:Ep; simpl.
      * split.
        -- intros [->|[]]. now exists stem, text.
        -- intros (stem' & text' & _ & [= <-] & Hp). left. congruence.
      * split; [intros [] | intros (? & text' & _ & [= <-] & Hp); congruence].
    + split; [intros [] | intros (? & ? & _ & H & _); discriminate].
  - split; [intros []|]. intros (stem & text & -> & _ & _).
    assert (endsWith (stem ++ ".json") ".json" = true)
      by (apply endsWith_iff; now exists stem).
    congruence.
Qed.

Lemma json_documents_In (root : FsNode) :
  forall doc,
    In doc (json_documents JSON_parse root) <-> LoadableAs JSON_parse root doc.
Proof.
  induction root as [content|entries IH| |] using FsNode_tree_ind; intros doc;
    try (split; [intros [] | intros (stem & text & H & _); inversion H]).
  rewrite json_documents_Directory, in_flat_map. split.
  - intros ([name node] & Hin & Hdoc). unfold entry_documents in Hdoc.
    cbn [fst snd] in Hdoc. destruct node as [content|sub| |].
    + apply file_documents_In in Hdoc as (stem & text & -> & -> & Hp).
      exists stem, text. split; [now apply FileUnder_here | exact Hp].
    + rewrite Forall_forall in IH. apply (IH _ Hin) in Hdoc
        as (stem & text & Hunder & Hp).
      exists stem, text. split; [|exact Hp].
      now apply FileUnder_below with (dirname := name) (sub := Directory sub).
    + destruct Hdoc.
    + destruct Hdoc.
  - intros (stem & text & Hunder & Hp).
    inversion Hunder as [es name content Hin|es dirname sub name content Hin Hsub];
      subst.
    + exists ((stem ++ ".json")%string, RegularFile (Some text)). split; [exact Hin|].
      unfold entry_documents. cbn [fst snd]. apply file_documents_In.
      now exists stem, text.
    + exists (dirname, sub). split; [exact Hin|].
      unfold entry_documents. cbn [fst snd].
      rewrite Forall_forall in IH.
      assert (Hdoc : In doc (json_documents JSON_parse sub))
        by (apply (IH _ Hin); now exists stem, text).
      destruct sub; try exact Hdoc; inversion Hsub.
Qed.
End LoaderFacts.

(** ** The store after loading *)

Lemma enter_all_keys_NoDup (l : list PrimeVueDoc) (m : DocStore) :
  NoDup (map fst m) ->
  NoDup (map fst (fold_left (fun docs doc => Map_set docs (id doc) doc) l m)).
Proof.
  revert m; induction l as [|x l IH]; intros m Hnd; [exact Hnd|].
  simpl. apply IH. now apply Map_set_keys_NoDup.
Qed.

Lemma find_app {A : Type} (f : A -> bool) (l1 l2 : list A) :
  find f (l1 ++ l2)
  = match find f l1 with Some x => Some x | None => find f l2 end.
Proof.
  induction l1 as [|x l1 IH]; simpl; [reflexivity|].
  now destruct (f x).
Qed.

Lemma enter_all_get (l : list PrimeVueDoc) (m : DocStore) (k : string) :
  Map_get (fold_left (fun docs doc => Map_set docs (id doc) doc) l m) k
  = match find (fun d => String.eqb (id d) k) (rev l) with
    | Some d => Some d
    | None => Map_get m k
    end.
Proof.
  revert m; induction l as [|x l IH]; intros m; [reflexivity|].
  cbn [fold_left rev]. rewrite IH, find_app.
  destruct (find _ (rev l)); [reflexivity|]. cbn [find].
  destruct (String.eqb_spec (id x) k) as [<-|Hne].
  - now rewrite Map_get_set_eq.
  - now rewrite Map_get_set_neq.
Qed.

Lemma filter_absorb {A : Type} (f g : A -> bool) (l : list A) :
  (forall x, f x = true -> g x = true) ->
  filter f (filter g l) = filter f l.
Proof.
  intros H. induction l as [|x l IH]; simpl; [reflexivity|].
  destruct (g x) eqn:Eg; simpl.
  - destruct (f x); now rewrite IH.
  - destruct (f x) eqn:Ef; [|exact IH]. apply H in Ef. congruence.
Qed.

Lemma enter_all_keys (l : list PrimeVueDoc) (m : DocStore) :
  map fst (fold_left (fun docs doc => Map_set docs (id doc) doc) l m)
  = map fst m
    ++ filter (fun k => negb (existsb (String.eqb k) (map fst m)))
              (keep_first (map id l)).
Proof.
  revert m; induction l as [|x l IH]; intros m.
  - simpl. now rewrite app_nil_r.
  - cbn [fold_left map keep_first filter]. rewrite IH, Map_set_keys.
    unfold Map_has.
    destruct (Map_get m (id x)) as [d|] eqn:Eget.
    + assert (Hin : existsb (String.eqb (id x)) (map fst m) = true).
      { apply existsb_exists. exists (id x). split; [|apply String.eqb_refl].
        apply Map_get_In, (in_map fst) in Eget. exact Eget. }
      rewrite Hin. cbn [negb]. f_equal. symmetry. apply filter_absorb.
      intros k Hk. apply negb_true_iff. apply negb_true_iff in Hk.
      destruct (String.eqb_spec k (id x)) as [->|]; [congruence | reflexivity].
    + assert (Hout : existsb (String.eqb (id x)) (map fst m) = false).
      { apply not_true_is_false. intros H. apply existsb_exists in H
          as (k & Hk & Heq). apply String.eqb_eq in Heq. subst k.
        apply Map_get_None in Eget. contradiction. }
      rewrite Hout. cbn [negb]. rewrite <- app_assoc. cbn [app]. do 2 f_equal.
      rewrite <- filter_andb. apply filter_ext. intros k.
      rewrite existsb_app. cbn [existsb]. now rewrite orb_false_r, negb_orb.
Qed.

Section LoadedStore.
Variable JSON_parse : string -> option PrimeVueDoc.
Variable root : FsNode.

(** X1: the loader enters exactly the files below the root whose name
    ends in [.json], that can be read and whose text parses: every stored
    document comes from such a file, and every such file has its id among
    the keys.  Files with another name, unreadable or malformed files,
    special entries and everything below an unreadable directory leave no
    trace. *)
Theorem loader_enters_exactly_the_loadable_files :
  (forall key doc, In (key, doc) (loadDocsFrom JSON_parse root) ->
     LoadableAs JSON_parse root doc)
  /\ (forall key, In key (map fst (loadDocsFrom JSON_parse root))
        <-> exists doc, LoadableAs JSON_parse root doc /\ id doc = key).
Proof.
  rewrite loadDocsFrom_loadDocs.
  assert (Hnd : NoDup (map fst (loadDocs (json_documents JSON_parse root))))
    by (apply enter_all_keys_NoDup; constructor).
  split.
  - intros key doc Hin. apply In_Map_get in Hin; [|exact Hnd].
    apply loadDocs_keys_are_ids in Hin as [_ Hin].
    now apply json_documents_In.
  - intros key. split.
    + intros Hin. apply in_map_iff in Hin as ([k doc] & <- & Hin). simpl.
      apply In_Map_get in Hin; [|exact Hnd].
      apply loadDocs_keys_are_ids in Hin as [Hid Hin].
      exists doc. split; [now apply json_documents_In | exact Hid].
    + intros (doc & Hload & <-). apply json_documents_In in Hload.
      destruct (Map_get (loadDocs (json_documents JSON_parse root)) (id doc))
        as [d|] eqn:E.
      * apply Map_get_In, (in_map fst) in E. exact E.
      * exfalso. unfold loadDocs in E. rewrite enter_all_get in E.
        destruct (find _ _) as [d|] eqn:Ef; [discriminate|].
        apply in_rev in Hload. apply (find_none _ _ Ef) in Hload.
        simpl in Hload. rewrite String.eqb_refl in Hload. discriminate.
Qed.

(** X2: in the loaded store every document sits under its own id, no key
    occurs twice, and looking up the id of a stored document returns that
    very document. *)
Theorem loaded_store_lookup_returns_stored_document :
  NoDup (map fst (loadDocsFrom JSON_parse root))
  /\ (forall key doc, In (key, doc) (loadDocsFrom JSON_parse root) ->
        id doc = key
        /\ Map_get (loadDocsFrom JSON_parse root) (id doc) = Some doc).
Proof.
  rewrite loadDocsFrom_loadDocs.
  assert (Hnd : NoDup (map fst (loadDocs (json_documents JSON_parse root))))
    by (apply enter_all_keys_NoDup; constructor).
  split; [exact Hnd|]. intros key doc Hin.
  apply In_Map_get in Hin; [|exact Hnd].
  pose proof (loadDocs_keys_are_ids _ _ _ Hin) as [Hid _].
  split; [exact Hid | now rewrite Hid].
Qed.

(** X3: when several files carry the same id, the store keeps the one
    that was read last: a lookup returns the last document of the traversal
    with that id, and nothing when there is none. *)
Theorem duplicate_id_last_loaded_wins :
  forall key,
    Map_get (loadDocsFrom JSON_parse root) key
    = find (fun doc => String.eqb (id doc) key)
           (rev (json_documents JSON_parse root)).
Proof.
  intros key. rewrite loadDocsFrom_loadDocs. unfold loadDocs.
  rewrite enter_all_get. now destruct (find _ _).
Qed.

(** X4: the store is iterated in the order in which the ids were first
    met during the traversal; a later file with a known id replaces the
    document but does not move it. *)
Theorem store_iterates_in_first_load_order :
  map fst (loadDocsFrom JSON_parse root)
  = keep_first (map id (json_documents JSON_parse root)).
Proof.
  rewrite loadDocsFrom_loadDocs. unfold loadDocs. rewrite enter_all_keys.
  cbn [map app existsb negb]. 
  induction (keep_first _) as [|k l IH]; [reflexivity|].
  cbn [filter]. now rewrite IH.
Qed.
End LoadedStore.

(** ** More on search *)

Lemma kept_docs_length docs query component :
  List.length (search_results docs query component)
  = List.length (kept_docs docs query component).
Proof.
  rewrite search_results_partition, length_map.
  apply Permutation_length, filter_partition_perm.
Qed.

(** X5: the number in the heading of the search reply is the number of
    documents that pass the component filter and match the query; when
    there is none the reply is the heading alone, with the count 0. *)
Theorem search_reply_counts_the_matching_documents :
  forall (docs : DocStore) (query : string) (component : option string),
  exists kept : DocStore,
    Selected (fun kd => Passes component (snd kd) /\ Matches query (snd kd))
             docs kept
    /\ List.length (search_results docs query component) = List.length kept
    /\ search_primevue_docs docs query component
       = Return (Tool.reply
           ("Found " ++ Number_toString (List.length kept) ++ " results for "
            ++ dquote ++ query ++ dquote ++ ":" ++ nl ++ nl
            ++ join nl (map render_entry (search_results docs query component))))
    /\ (kept = [] ->
        search_primevue_docs docs query component
        = Return (Tool.reply
            ("Found 0 results for " ++ dquote ++ query ++ dquote ++ ":"
             ++ nl ++ nl))).
Proof.
  intros docs query component. exists (kept_docs docs query component).
  pose proof (kept_docs_length docs query component) as Hlen.
  repeat split.
  - apply kept_docs_Selected.
  - exact Hlen.
  - unfold search_primevue_docs. now rewrite Hlen.
  - intros Hnone. unfold search_primevue_docs.
    rewrite search_results_partition, Hnone. reflexivity.
Qed.

Lemma doc_matches_empty (doc : PrimeVueDoc) :
  titleMatch EmptyString doc = true /\ doc_matches EmptyString doc = true.
Proof.
  unfold doc_matches, titleMatch. now rewrite includes_empty.
Qed.

Lemma filter_all {A : Type} (f : A -> bool) (l : list A) :
  (forall x, f x = true) ->
  filter f l = l /\ filter (fun x => negb (f x)) l = [].
Proof.
  intros H. induction l as [|x l [IH1 IH2]]; simpl; [auto|].
  rewrite H. simpl. now rewrite IH1, IH2.
Qed.

(** X6: the empty query matches every document.  Search then returns one
    entry for each document that passes the component filter, in collection
    order (all of the collection without a filter), and each snippet is made
    of the first three lines of the body, never of the placeholder. *)
Theorem search_with_empty_query_returns_the_collection :
  forall (docs : DocStore) (component : option string),
    (exists passing : DocStore,
       Selected (fun kd => Passes component (snd kd)) docs passing
       /\ search_results docs EmptyString component
          = map (entry_of EmptyString) passing)
    /\ search_results docs EmptyString None = map (entry_of EmptyString) docs
    /\ (forall key doc,
          ResultEntry.snippet (entry_of EmptyString (key, doc))
          = join nl (firstn 3 (split "010" (value (content doc))))).
Proof.
  intros docs component.
  assert (Hres : forall c,
            search_results docs EmptyString c
            = map (entry_of EmptyString)
                  (filter (fun kd => negb (skipped_by c (snd kd))) docs)).
  { intros c. rewrite search_results_partition. cbn [toLowerCase].
    destruct (filter_all (fun kd : string * PrimeVueDoc =>
                            titleMatch EmptyString (snd kd))
                         (kept_docs docs EmptyString c)) as [-> ->];
      [intros kd; apply doc_matches_empty|].
    rewrite app_nil_r. f_equal. unfold kept_docs. cbn [toLowerCase].
    apply filter_ext. intros kd.
    destruct (doc_matches_empty (snd kd)) as [_ ->]. apply andb_true_r. }
  repeat split.
  - eexists. split; [|apply Hres].
    apply Selected_filter. intros kd.
    rewrite negb_true_iff. apply skipped_by_iff.
  - rewrite Hres. f_equal.
    destruct (filter_all (fun kd : string * PrimeVueDoc =>
                            negb (skipped_by None (snd kd))) docs) as [H _];
      [reflexivity | exact H].
  - intros key doc. cbn [entry_of result_entry ResultEntry.snippet fst snd toLowerCase].
    unfold snippet_of, relevantLines.
    destruct (filter_all (fun line => includes (toLowerCase line) EmptyString)
                         (split "010" (value (content doc)))) as [-> _];
      [intros line; apply includes_empty|].
    pose proof (split_not_nil "010" (value (content doc))) as Hnn.
    destruct (split "010" (value (content doc))) as [|l1 ls]; [contradiction|].
    reflexivity.
Qed.

Lemma Substring_trans (a b c : string) :
  Substring a b -> Substring b c -> Substring a c.
Proof.
  intros (p1 & s1 & ->) (p2 & s2 & ->).
  exists (p2 ++ p1)%string, (s1 ++ s2)%string.
  now rewrite !append_assoc.
Qed.

Lemma search_results_In docs query component key doc :
  In (key, doc) docs -> Passes component doc -> Matches query doc ->
  In (entry_of query (key, doc)) (search_results docs query component).
Proof.
  intros Hin Hp Hm. rewrite search_results_partition. apply in_map.
  apply (Permutation_in _ (Permutation_sym (filter_partition_perm _ _))).
  apply (Selected_In _ _ _ _ (kept_docs_Selected docs query component)).
  now split.
Qed.

(** X7: shortening a query never loses a document.  When the lower-cased
    [query'] occurs in the lower-cased [query], every document of the
    collection that passes the filter and matches [query] also matches
    [query'] and has its entry in the results for [query']. *)
Theorem search_shorter_query_finds_no_less :
  forall (docs : DocStore) (query query' : string) (component : option string)
         (key : string) (doc : PrimeVueDoc),
    Substring (toLowerCase query') (toLowerCase query) ->
    In (key, doc) docs -> Passes component doc -> Matches query doc ->
    Matches query' doc
    /\ In (entry_of query' (key, doc)) (search_results docs query' component).
Proof.
  intros docs query query' component key doc Hsub Hin Hp Hm.
  assert (Hm' : Matches query' doc).
  { destruct Hm as [H|[H|(tag & Htag & H)]].
    - left. now apply Substring_trans with (b := toLowerCase query).
    - right; left. now apply Substring_trans with (b := toLowerCase query).
    - right; right. exists tag. split; [exact Htag|].
      now apply Substring_trans with (b := toLowerCase query). }
  split; [exact Hm' | now apply search_results_In].
Qed.

Lemma search_shorter_query_finds_no_less_witness :
  Substring (toLowerCase "API") (toLowerCase "### api")
  /\ In ("/primevue/components/button", Example_corpus.button) Example_corpus.docs
  /\ Passes None Example_corpus.button
  /\ Matches "### api" Example_corpus.button
  /\ Matches "API" Example_corpus.button
  /\ In (entry_of "API" ("/primevue/components/button", Example_corpus.button))
        (search_results Example_corpus.docs "API" None).
Proof.
  assert (Hsub : Substring (toLowerCase "API") (toLowerCase "### api"))
    by (now exists "### ", EmptyString).
  assert (Hin : In ("/primevue/components/button", Example_corpus.button)
                   Example_corpus.docs) by (left; reflexivity).
  assert (Hm : Matches "### api" Example_corpus.button)
    by (right; left; now exists "button usage. ", (nl ++ "props: label")%string).
  repeat split; try assumption;
    apply (search_shorter_query_finds_no_less Example_corpus.docs "### api" "API"
             None "/primevue/components/button" Example_corpus.button
             Hsub Hin I Hm).
Defined.

Lemma replace_namespace (path : string) :
  replace ("/primevue/" ++ path) "/primevue/" EmptyString = path.
Proof.
  unfold replace, indexOf. rewrite indexOf_from_eq.
  assert (Hp : prefix "/primevue/" ("/primevue/" ++ path) = true)
    by (apply prefix_iff; now exists path).
  rewrite Hp. reflexivity.
Qed.






Example read_resource_examples :
  forall unmatched : string -> JsError,
    read_resource unmatched Flat_corpus.docs "primevue://changelog"
    = Return {| Resource.contents :=
                  [ {| Resource.uri := "primevue://changelog";
                       Resource.mimeType := "text/markdown";
                       Resource.text := "Changes" |} ] |}
    /\ read_resource unmatched Flat_corpus.docs "primevue://nothing"
       = Throw (Error "Documentation not found: nothing")
    /\ map ResultEntry.uri (search_results Example_corpus.docs "api" None)
       = ["primevue://components/button"]
    /\ read_resource unmatched Example_corpus.docs "primevue://components/button"
       = Throw (unmatched "primevue://components/button").
Proof. intros unmatched. repeat split. Qed.

(** ** Case of the arguments *)

Lemma lowerChar_idempotent (c : ascii) : lowerChar (lowerChar c) = lowerChar c.
Proof. destruct c as [[] [] [] [] [] [] [] []]; reflexivity. Qed.

Lemma toLowerCase_idempotent (s : string) :
  toLowerCase (toLowerCase s) = toLowerCase s.
Proof.
  induction s as [|c s IH]; simpl; [reflexivity|].
  now rewrite lowerChar_idempotent, IH.
Qed.

Lemma supplied_toLowerCase (arg : option string) :
  supplied (option_map toLowerCase arg) = option_map toLowerCase (supplied arg).
Proof.
  destruct arg as [[|c s]|]; reflexivity.
Qed.

Lemma skipped_by_toLowerCase (component : option string) (doc : PrimeVueDoc) :
  skipped_by (option_map toLowerCase component) doc = skipped_by component doc.
Proof.
  unfold skipped_by. rewrite supplied_toLowerCase.
  destruct (supplied component); simpl; [|reflexivity].
  now rewrite toLowerCase_idempotent.
Qed.

Lemma other_category_toLowerCase (category : option string) (c : string) :
  other_category (option_map toLowerCase category) c = other_category category c.
Proof.
  unfold other_category. rewrite supplied_toLowerCase.
  destruct (supplied category); simpl; [|reflexivity].
  now rewrite toLowerCase_idempotent.
Qed.

Lemma categories_loop_toLowerCase category docs m :
  categories_loop (option_map toLowerCase category) docs m
  = categories_loop category docs m.
Proof.
  revert m; induction docs as [|[key doc] docs IH]; intros m; [reflexivity|].
  cbn [categories_loop]. rewrite other_category_toLowerCase.
  destruct (other_category category (category_of doc)); apply IH.
Qed.

(** X9: the textual arguments are taken without regard to case.  Writing
    the query and the component filter of search, the category filter of
    the listing, or the component of the API lookup in lower case changes
    neither the result entries, nor the groups, nor the document found. *)
Theorem arguments_are_case_insensitive :
  forall (docs : DocStore) (query : string) (component category : option string)
         (name : string),
    search_results docs (toLowerCase query) (option_map toLowerCase component)
    = search_results docs query component
    /\ category_groups docs (option_map toLowerCase category)
       = category_groups docs category
    /\ lookup_component docs (toLowerCase name) = lookup_component docs name.
Proof.
  intros docs query component category name. repeat split.
  - unfold search_results. rewrite toLowerCase_idempotent, !search_loop_filter.
    do 3 f_equal. apply filter_ext. intros kd.
    now rewrite skipped_by_toLowerCase.
  - unfold category_groups. now rewrite categories_loop_toLowerCase.
  - unfold lookup_component, find_by_title. now rewrite toLowerCase_idempotent.
Qed.

(** ** The category filter *)

Section FilterGroups.
Variable p : string -> bool.

Let pg (g : string * list string) : bool := p (fst g).

Lemma Map_get_filter_key (m : JsMap (list string)) (k : string) :
  p k = true -> Map_get (filter pg m) k = Map_get m k.
Proof.
  intros Hk. subst pg. induction m as [|[k0 v0] m IH]; [reflexivity|].
  simpl. destruct (String.eqb k0 k) eqn:E.
  - apply String.eqb_eq in E. subst k0. rewrite Hk. simpl.
    now rewrite String.eqb_refl.
  - destruct (p k0); [|exact IH]. simpl. now rewrite E.
Qed.

Lemma Map_set_filter_in (m : JsMap (list string)) (k : string) (v : list string) :
  p k = true -> filter pg (Map_set m k v) = Map_set (filter pg m) k v.
Proof.
  intros Hk. subst pg. induction m as [|[k0 v0] m IH].
  - simpl. now rewrite Hk.
  - simpl. destruct (String.eqb k0 k) eqn:E.
    + apply String.eqb_eq in E. subst k0. simpl. rewrite Hk. simpl.
      now rewrite String.eqb_refl.
    + simpl. destruct (p k0); [|exact IH]. simpl. now rewrite E, IH.
Qed.

Lemma Map_set_filter_out (m : JsMap (list string)) (k : string) (v : list string) :
  p k = false -> filter pg (Map_set m k v) = filter pg m.
Proof.
  intros Hk. subst pg. induction m as [|[k0 v0] m IH].
  - simpl. now rewrite Hk.
  - simpl. destruct (String.eqb k0 k) eqn:E.
    + apply String.eqb_eq in E. subst k0. simpl. now rewrite Hk.
    + simpl. now rewrite IH.
Qed.

Lemma grouping_commutes_with_filter (docs : DocStore) :
  forall m,
    filter pg (categories_loop None docs m)
    = categories_loop None
        (filter (fun kd => p (category_of (snd kd))) docs) (filter pg m).
Proof.
  induction docs as [|[key doc] docs IH]; intros m; [reflexivity|].
  rewrite categories_loop_cons by reflexivity. rewrite IH. cbn [filter snd].
  unfold push_title.
  destruct (p (category_of doc)) eqn:Hp.
  - rewrite categories_loop_cons by reflexivity. unfold push_title.
    now rewrite Map_set_filter_in, Map_get_filter_key.
  - now rewrite Map_set_filter_out.
Qed.
End FilterGroups.

Lemma categories_loop_prefilter category docs m :
  categories_loop category docs m
  = categories_loop None
      (filter (fun kd => negb (other_category category (category_of (snd kd))))
              docs) m.
Proof.
  revert m; induction docs as [|[key doc] docs IH]; intros m; [reflexivity|].
  cbn [filter snd]. cbn [categories_loop].
  destruct (other_category category (category_of doc)) eqn:E; cbn [negb].
  - apply IH.
  - cbn [categories_loop]. change (other_category None (category_of doc)) with false.
    cbv iota. apply IH.
Qed.

(** X10: the category filter of the listing selects among the groups of
    the unfiltered listing: with a non-empty [category] the groups are
    those whose name equals it up to case, in the same order and with the
    same titles (several groups when names differ only by case); an empty
    [category] filters nothing. *)
Theorem category_filter_selects_groups :
  forall (docs : DocStore) (category : string),
    category_groups docs (Some category)
    = if String.eqb category EmptyString then category_groups docs None
      else filter (fun g => String.eqb (toLowerCase (fst g)) (toLowerCase category))
                  (category_groups docs None).
Proof.
  intros docs category. unfold category_groups.
  destruct (String.eqb_spec category EmptyString) as [->|Hne].
  - f_equal. rewrite categories_loop_prefilter. f_equal.
    destruct (filter_all (fun kd : string * PrimeVueDoc =>
                negb (other_category (Some EmptyString) (category_of (snd kd))))
                docs) as [H _]; [reflexivity | exact H].
  - rewrite filter_map_swap. cbn [fst]. f_equal.
    rewrite categories_loop_prefilter.
    rewrite (grouping_commutes_with_filter
               (fun k => String.eqb (toLowerCase k) (toLowerCase category)) docs []).
    cbn [filter]. f_equal. apply filter_ext. intros kd.
    unfold other_category, supplied.
    apply String.eqb_neq in Hne. rewrite Hne. apply negb_involutive.
Qed.

Lemma categories_loop_all_skipped category docs m :
  (forall key doc, In (key, doc) docs ->
     other_category category (category_of doc) = true) ->
  categories_loop category docs m = m.
Proof.
  revert m; induction docs as [|[key doc] docs IH]; intros m H; [reflexivity|].
  cbn [categories_loop]. rewrite (H key doc) by now left.
  apply IH. intros k d Hin. apply (H k d). now right.
Qed.

(** X11: a category filter that fits no document is no error: when no
    document's category equals the non-empty [category] up to case, the
    reply is the heading for that category with an empty body. *)
Theorem unmatched_category_gives_empty_listing :
  forall (docs : DocStore) (category : string),
    category <> EmptyString ->
    (forall key doc, In (key, doc) docs ->
       toLowerCase (category_of doc) <> toLowerCase category) ->
    category_groups docs (Some category) = []
    /\ list_categories docs (Some category)
       = Return (Tool.reply
           ("Components in " ++ dquote ++ category ++ dquote ++ " category:"
            ++ nl ++ nl)).
Proof.
  intros docs category Hne Hnone.
  assert (Hgroups : category_groups docs (Some category) = []).
  { unfold category_groups. rewrite categories_loop_all_skipped; [reflexivity|].
    intros key doc Hin. unfold other_category, supplied.
    apply String.eqb_neq in Hne. rewrite Hne.
    apply negb_true_iff, String.eqb_neq. now apply (Hnone key). }
  split; [exact Hgroups|].
  unfold list_categories. rewrite Hgroups. unfold supplied.
  apply String.eqb_neq in Hne. rewrite Hne. cbn [map join].
  now rewrite !append_nil_r.
Qed.

Lemma unmatched_category_gives_empty_listing_witness :
  "Forms" <> EmptyString
  /\ (forall key doc, In (key, doc) Example_corpus.docs ->
        toLowerCase (category_of doc) <> toLowerCase "Forms")
  /\ category_groups Example_corpus.docs (Some "Forms") = []
  /\ list_categories Example_corpus.docs (Some "Forms")
     = Return (Tool.reply
         ("Components in " ++ dquote ++ "Forms" ++ dquote ++ " category:"
          ++ nl ++ nl)).
Proof.
  assert (H1 : "Forms" <> EmptyString) by discriminate.
  assert (H2 : forall key doc, In (key, doc) Example_corpus.docs ->
                 toLowerCase (category_of doc) <> toLowerCase "Forms").
  { intros key doc [H|[H|[]]]; injection H as <- <-; discriminate. }
  split; [exact H1|]. split; [exact H2|].
  apply (unmatched_category_gives_empty_listing Example_corpus.docs "Forms" H1 H2).
Defined.

(** ** When the component lookup raises *)

Lemma group_step_inherited (o : JsObject.t) (comp : Available.t) :
  Map_get o (Available.category comp) = None ->
  existsb (String.eqb (Available.category comp)) JsObject.Object_prototype_keys
  = true ->
  group_step (Return o) comp = Throw TypeError.
Proof.
  intros Hnone Hinh. unfold group_step, JsObject.get.
  rewrite Hnone, Hinh. cbn [JsObject.truthy]. now rewrite ?Hnone, ?Hinh.
Qed.

Lemma grouping_raises (l : list Available.t) :
  forall o : JsObject.t,
    (forall k, In k (map fst o) ->
       existsb (String.eqb k) JsObject.Object_prototype_keys = false) ->
    Exists (fun comp =>
              existsb (String.eqb (Available.category comp))
                      JsObject.Object_prototype_keys = true) l ->
    fold_left group_step l (Return o) = Throw TypeError.
Proof.
  induction l as [|x l IH]; intros o Hown Hex; [inversion Hex|].
  cbn [fold_left].
  destruct (existsb (String.eqb (Available.category x))
                    JsObject.Object_prototype_keys) eqn:Ex.
  - rewrite group_step_inherited; [apply group_step_Throw | | exact Ex].
    apply Map_get_None. intros Hin. apply Hown in Hin. congruence.
  - rewrite group_step_plain by exact Ex. apply IH.
    + intros k Hk. unfold push_title in Hk. apply Map_set_keys_In in Hk as [Hk| ->];
        [now apply Hown | exact Ex].
    + inversion Hex as [? ? Hx|? ? Hl]; subst; [congruence | exact Hl].
Qed.

Lemma plain_or_inherited (docs : DocStore) :
  plain_categories docs
  \/ exists key doc,
       In (key, doc) docs
       /\ existsb (String.eqb (category_of doc)) JsObject.Object_prototype_keys
          = true.
Proof.
  induction docs as [|[key doc] docs [IH|(k & d & Hin & Hd)]].
  - left. intros key doc [].
  - destruct (existsb (String.eqb (category_of doc))
                      JsObject.Object_prototype_keys) eqn:E.
    + right. exists key, doc. split; [now left | exact E].
    + left. intros k d [H|H]; [injection H as <- <-; exact E | now apply (IH k)].
  - right. exists k, d. split; [now right | exact Hd].
Qed.

(** X12: [get_component_api] raises in one situation only, and then with
    a [TypeError]: the component is found neither by title nor by key, and
    some document of the store has a category named like a property that
    objects inherit ([constructor], [toString], ...).  In every other case
    it returns a reply. *)
Theorem get_component_api_raises_exactly_on_inherited_category :
  forall (localeCompare : string -> string -> Z) (docs : DocStore)
         (component : string),
    (get_component_api localeCompare docs component = Throw TypeError
     <-> lookup_component docs component = None
         /\ exists key doc,
              In (key, doc) docs
              /\ In (category_of doc) JsObject.Object_prototype_keys)
    /\ ((exists reply, get_component_api localeCompare docs component = Return reply)
        \/ get_component_api localeCompare docs component = Throw TypeError).
Proof.
  intros lc docs component.
  assert (Hinh : forall doc,
            existsb (String.eqb (category_of doc)) JsObject.Object_prototype_keys
            = true <-> In (category_of doc) JsObject.Object_prototype_keys).
  { intros doc. rewrite existsb_exists. split.
    - intros (k & Hk & Heq). apply String.eqb_eq in Heq. now subst k.
    - intros H. exists (category_of doc). split; [exact H | apply String.eqb_refl]. }
  assert (Hraise : lookup_component docs component = None ->
            (exists key doc, In (key, doc) docs
               /\ In (category_of doc) JsObject.Object_prototype_keys) ->
            get_component_api lc docs component = Throw TypeError).
  { intros Hmiss (key & doc & Hin & Hcat).
    unfold get_component_api, not_found_listing, componentsByCategory.
    rewrite Hmiss, grouping_raises; [reflexivity | intros k [] |].
    apply Exists_exists.
    exists {| Available.title := title doc; Available.category := category_of doc |}.
    split; [|now apply Hinh].
    unfold availableComponents.
    apply (Permutation_in _ (Permutation_sym (Array_sort_perm _ _))).
    apply in_map_iff. exists doc. split; [reflexivity|].
    apply in_map_iff. now exists (key, doc). }
  destruct (lookup_component docs component) as [found|] eqn:Hlook.
  - assert (Hret : get_component_api lc docs component
                   = Return (Tool.reply (api_reference found)))
      by (unfold get_component_api; now rewrite Hlook).
    split; [|left; eauto].
    rewrite Hret. split; [discriminate | intros [H _]; discriminate].
  - destruct (plain_or_inherited docs) as [Hplain|(key & doc & Hin & Hcat)].
    + destruct (unknown_component_listing_when_plain lc docs component Hplain Hlook)
        as (o & _ & Hret).
      split; [|left; eauto].
      rewrite Hret. split; [discriminate|].
      intros (_ & k & d & Hk & Hd). apply Hinh in Hd.
      rewrite (Hplain k d Hk) in Hd. discriminate.
    + apply Hinh in Hcat.
      assert (Hthrow : get_component_api lc docs component = Throw TypeError)
        by (apply Hraise; [reflexivity | now exists key, doc]).
      split; [|now right].
      split; [|intros _; exact Hthrow].
      intros _. split; [reflexivity | now exists key, doc].
Qed.

(** ** Which document the component lookup picks *)

Lemma find_first {A : Type} (f : A -> bool) (l : list A) :
  match find f l with
  | Some x => exists before after,
                l = before ++ x :: after /\ f x = true
                /\ Forall (fun y => f y = false) before
  | None => Forall (fun y => f y = false) l
  end.
Proof.
  induction l as [|y l IH]; simpl; [constructor|].
  destruct (f y) eqn:E.
  - exists [], l. repeat split; auto.
  - destruct (find f l) as [x|].
    + destruct IH as (before & after & -> & Hx & Hb).
      exists (y :: before), after. repeat split; auto.
    + now constructor.
Qed.

(** X14: the component lookup prefers titles to keys and early documents
    to late ones.  Either some title equals the component up to case, and
    the document found is the first such document in collection order; or
    no title does, and the lookup is the one by the key
    [/primevue/components/] followed by the lower-cased component. *)
Theorem lookup_component_takes_first_title_match :
  forall (docs : DocStore) (component : string),
    (exists before key doc after,
       docs = before ++ (key, doc) :: after
       /\ toLowerCase (title doc) = toLowerCase component
       /\ Forall (fun kd => toLowerCase (title (snd kd)) <> toLowerCase component)
                 before
       /\ lookup_component docs component = Some doc)
    \/ (Forall (fun kd => toLowerCase (title (snd kd)) <> toLowerCase component)
               docs
        /\ lookup_component docs component
           = Map_get docs ("/primevue/components/" ++ toLowerCase component)).
Proof.
  intros docs component. unfold lookup_component, find_by_title.
  pose proof (find_first
                (fun kd : string * PrimeVueDoc =>
                   String.eqb (toLowerCase (title (snd kd))) (toLowerCase component))
                docs) as Hfirst.
  assert (Hfind : find (fun d => String.eqb (toLowerCase (title d))
                                            (toLowerCase component)) (map snd docs)
                  = option_map snd
                      (find (fun kd : string * PrimeVueDoc =>
                               String.eqb (toLowerCase (title (snd kd)))
                                          (toLowerCase component)) docs)).
  { clear Hfirst. induction docs as [|[k d] docs IH]; simpl; [reflexivity|].
    destruct (String.eqb _ _); [reflexivity | exact IH]. }
  rewrite Hfind.
  assert (Hno : forall l : DocStore,
            Forall (fun y => String.eqb (toLowerCase (title (snd y)))
                                        (toLowerCase component) = false) l ->
            Forall (fun kd => toLowerCase (title (snd kd)) <> toLowerCase component) l).
  { intros l H. eapply Forall_impl; [|exact H].
    intros kd Hkd. now apply String.eqb_neq. }
  destruct (find _ docs) as [[key doc]|].
  - left. destruct Hfirst as (before & after & -> & Heq & Hb).
    exists before, key, doc, after. repeat split; auto.
    now apply String.eqb_eq in Heq.
  - right. split; [now apply Hno | reflexivity].
Qed.

(** ** The converter *)

Lemma split_sep_free (sep : ascii) (s : string) :
  NoChar sep s -> split sep s = [s].
Proof.
  unfold NoChar. induction s as [|c s IH]; simpl; [reflexivity|].
  intros H. destruct (Ascii.eqb_spec c sep) as [->|Hne]; [tauto|].
  rewrite IH by tauto. reflexivity.
Qed.

Lemma split_app_sep (sep : ascii) (a b : string) :
  split sep (a ++ String sep b) = split sep a ++ split sep b.
Proof.
  induction a as [|c a IH]; simpl.
  - now rewrite Ascii.eqb_refl.
  - destruct (Ascii.eqb c sep); rewrite IH; [reflexivity|].
    pose proof (split_not_nil sep a) as Hnn.
    now destruct (split sep a).
Qed.

Lemma Array_pop_last (l : list string) (x : string) :
  Array_pop (l ++ [x]) = Some x.
Proof.
  induction l as [|y l IH]; [reflexivity|].
  cbn [app Array_pop]. destruct (l ++ [x]) eqn:E; [now destruct l | exact IH].
Qed.

Lemma last_segment (sep : ascii) (s : string) :
  NoChar sep s
  \/ exists dirs filename,
       s = (dirs ++ String sep filename)%string /\ NoChar sep filename.
Proof.
  unfold NoChar. induction s as [|c s [IH|(dirs & f & -> & Hf)]].
  - left. simpl. tauto.
  - destruct (Ascii.eqb_spec c sep) as [->|Hne].
    + right. exists EmptyString, s. split; [reflexivity | exact IH].
    + left. simpl. intros [H|H]; [congruence | tauto].
  - right. exists (String c dirs), f. split; [reflexivity | exact Hf].
Qed.

Lemma split_ends_with_file (sep : ascii) (dirs filename : string) :
  NoChar sep filename ->
  hd EmptyString (split sep (dirs ++ String sep filename))
  = hd EmptyString (split sep dirs)
  /\ Array_pop (tl (split sep (dirs ++ String sep filename))) = Some filename.
Proof.
  intros Hf. rewrite split_app_sep, (split_sep_free sep filename Hf).
  pose proof (split_not_nil sep dirs) as Hnn.
  destruct (split sep dirs) as [|first more]; [contradiction|].
  split; [reflexivity|]. cbn [app tl]. apply Array_pop_last.
Qed.

Lemma convertToMCP_file platform mdPath dirs filename mdBody created_at updated_at :
  NoChar (path_sep platform) filename ->
  convertToMCP platform mdPath (dirs ++ String (path_sep platform) filename)
               mdBody created_at updated_at
  = if String.eqb filename EmptyString
    then Throw (Error ("Invalid file path: " ++ mdPath))
    else
      let category := hd EmptyString (split (path_sep platform) dirs) in
      Return
        {| schema := "1.0";
           id := "/primevue/" ++ toLowerCase category ++ "/" ++ strip_md filename;
           title := replaceAll "-" " " (strip_md filename);
           tags := [category];
           content := {| type := "text/markdown"; value := trim mdBody |};
           metadata :=
             {| source := "https://primevue.org";
                file := replaceAll "092" "/"
                          (dirs ++ String (path_sep platform) filename);
                created := created_at;
                updated := updated_at |} |}.
Proof.
  intros Hf. unfold convertToMCP.
  destruct (split_ends_with_file (path_sep platform) dirs filename Hf) as [-> ->].
  reflexivity.
Qed.

Lemma convertToMCP_no_directory platform mdPath relativePath mdBody c u :
  NoChar (path_sep platform) relativePath ->
  convertToMCP platform mdPath relativePath mdBody c u
  = Throw (Error ("Invalid file path: " ++ mdPath)).
Proof.
  intros H. unfold convertToMCP. now rewrite (split_sep_free _ _ H).
Qed.

(** X16: the converter names a document after the first directory and
    the file name only.  For a file [filename] (not empty) lying in or
    anywhere below the directories [dirs], the id is [/primevue/], the
    lower-cased first directory, a slash and the file name without a final
    [.md]; the title is that name with hyphens turned into spaces; the only
    tag is the first directory as spelled.  Directories between the first
    one and the file leave no trace in id, title or tags. *)
Theorem converter_names_document_by_first_directory_and_file :
  forall (platform : Platform)
         (mdPath dirs filename mdBody created_at updated_at : string),
    NoChar (path_sep platform) filename ->
    filename <> EmptyString ->
    convertToMCP platform mdPath (dirs ++ String (path_sep platform) filename)
                 mdBody created_at updated_at
    = Return
        {| schema := "1.0";
           id := "/primevue/"
                 ++ toLowerCase (hd EmptyString (split (path_sep platform) dirs))
                 ++ "/" ++ strip_md filename;
           title := replaceAll "-" " " (strip_md filename);
           tags := [hd EmptyString (split (path_sep platform) dirs)];
           content := {| type := "text/markdown"; value := trim mdBody |};
           metadata :=
             {| source := "https://primevue.org";
                file := replaceAll "092" "/"
                          (dirs ++ String (path_sep platform) filename);
                created := created_at;
                updated := updated_at |} |}.
Proof.
  intros platform mdPath dirs filename mdBody c u Hf Hne.
  rewrite convertToMCP_file by exact Hf.
  apply String.eqb_neq in Hne. now rewrite Hne.
Qed.

Lemma converter_names_document_by_first_directory_and_file_witness :
  NoChar (path_sep posix) "data-table.md"
  /\ "data-table.md" <> EmptyString
  /\ convertToMCP posix "/site/markdown/Components/Data/data-table.md"
                  ("Components/Data" ++ String (path_sep posix) "data-table.md")
                  "  # DataTable " "t0" "t1"
     = Return
         {| schema := "1.0";
            id := "/primevue/"
                  ++ toLowerCase (hd EmptyString
                                     (split (path_sep posix) "Components/Data"))
                  ++ "/" ++ strip_md "data-table.md";
            title := replaceAll "-" " " (strip_md "data-table.md");
            tags := [hd EmptyString (split (path_sep posix) "Components/Data")];
            content := {| type := "text/markdown"; value := trim "  # DataTable " |};
            metadata :=
              {| source := "https://primevue.org";
                 file := replaceAll "092" "/"
                           ("Components/Data"
                            ++ String (path_sep posix) "data-table.md");
                 created := "t0";
                 updated := "t1" |} |}.
Proof.
  assert (H1 : NoChar (path_sep posix) "data-table.md").
  { unfold NoChar. simpl. intros H.
    repeat (destruct H as [H|H]; [discriminate|]). exact H. }
  assert (H2 : "data-table.md" <> EmptyString) by discriminate.
  split; [exact H1|]. split; [exact H2|].
  apply (converter_names_document_by_first_directory_and_file posix
           "/site/markdown/Components/Data/data-table.md" "Components/Data"
           "data-table.md" "  # DataTable " "t0" "t1" H1 H2).
Defined.

Example convertToMCP_data_table :
  convertToMCP posix "/site/markdown/Components/Data/data-table.md"
               "Components/Data/data-table.md" "  # DataTable " "t0" "t1"
  = Return
      {| schema := "1.0";
         id := "/primevue/components/data-table";
         title := "data table";
         tags := ["Components"];
         content := {| type := "text/markdown"; value := "# DataTable" |};
         metadata := {| source := "https://primevue.org";
                        file := "Components/Data/data-table.md";
                        created := "t0"; updated := "t1" |} |}.
Proof. reflexivity. Qed.

(** X17: the converter rejects a path exactly when it names no file
    inside a directory: when the path relative to the input directory holds
    no separator (a file lying directly in the input directory), or ends
    with one.  The failure is the error [Invalid file path] with the full
    path; every other path is converted. *)
Theorem converter_rejects_exactly_files_outside_directories :
  forall (platform : Platform)
         (mdPath relativePath mdBody created_at updated_at : string),
    ((exists e, convertToMCP platform mdPath relativePath mdBody
                             created_at updated_at = Throw e)
     <-> NoChar (path_sep platform) relativePath
         \/ exists dirs,
              relativePath = (dirs ++ String (path_sep platform) EmptyString)%string)
    /\ forall e,
         convertToMCP platform mdPath relativePath mdBody created_at updated_at
         = Throw e ->
         e = Error ("Invalid file path: " ++ mdPath).
Proof.
  intros platform mdPath relativePath mdBody c u.
  assert (Hnil : NoChar (path_sep platform) EmptyString)
    by (unfold NoChar; simpl; tauto).
  destruct (last_segment (path_sep platform) relativePath)
    as [Hno|(dirs & filename & -> & Hf)].
  - rewrite (convertToMCP_no_directory _ _ _ _ _ _ Hno). split.
    + split; [auto | eauto].
    + now intros e [= <-].
  - rewrite (convertToMCP_file _ _ _ _ _ _ _ Hf).
    destruct (String.eqb_spec filename EmptyString) as [->|Hne].
    + split; [|now intros e [= <-]].
      split; [intros _; right; now exists dirs | eauto].
    + split; [|discriminate]. split; [intros [e He]; discriminate|].
      intros [Hno|(dirs' & Heq)]; exfalso.
      * apply Hno. rewrite <- (string_of_list_ascii_of_string dirs).
        clear. induction (list_ascii_of_string dirs) as [|x l IH]; simpl; auto.
      * pose proof (split_ends_with_file (path_sep platform) dirs filename Hf)
          as [_ H1].
        pose proof (split_ends_with_file (path_sep platform) dirs' EmptyString Hnil)
          as [_ H2].
        rewrite Heq in H1. congruence.
Qed.

Lemma replaceAll_app (c d : ascii) (a b : string) :
  replaceAll c d (a ++ b) = (replaceAll c d a ++ replaceAll c d b)%string.
Proof. induction a as [|x a IH]; simpl; [reflexivity | now rewrite IH]. Qed.

Lemma replaceAll_NoChar (c d : ascii) (s : string) :
  NoChar c s -> replaceAll c d s = s.
Proof.
  unfold NoChar. induction s as [|x s IH]; simpl; [reflexivity|].
  intros H. destruct (Ascii.eqb_spec x c) as [->|Hne]; [tauto|].
  rewrite IH by tauto. reflexivity.
Qed.

Lemma split_hd_sep_free (sep : ascii) (a b : string) :
  NoChar sep a -> hd EmptyString (split sep (a ++ String sep b)) = a.
Proof.
  intros Ha. now rewrite split_app_sep, (split_sep_free sep a Ha).
Qed.

Lemma path_sep_cases (platform : Platform) :
  path_sep platform = "/"%char \/ path_sep platform = "092"%char.
Proof. destruct platform; auto. Qed.

Lemma convertToMCP_in_category platform mdPath category tailpath mdBody c u doc :
  NoChar (path_sep platform) category ->
  convertToMCP platform mdPath (category ++ String (path_sep platform) tailpath)
               mdBody c u = Return doc ->
  exists name,
    doc = {| schema := "1.0";
             id := "/primevue/" ++ toLowerCase category ++ "/" ++ name;
             title := replaceAll "-" " " name;
             tags := [category];
             content := {| type := "text/markdown"; value := trim mdBody |};
             metadata :=
               {| source := "https://primevue.org";
                  file := replaceAll "092" "/"
                            (category ++ String (path_sep platform) tailpath);
                  created := c;
                  updated := u |} |}.
Proof.
  intros Hcat Hconv.
  destruct (last_segment (path_sep platform) tailpath)
    as [Hno|(dirs & filename & -> & Hf)].
  - rewrite (convertToMCP_file _ _ _ _ _ _ _ Hno) in Hconv.
    destruct (String.eqb tailpath EmptyString); [discriminate|].
    cbv zeta in Hconv. rewrite (split_sep_free _ _ Hcat) in Hconv.
    injection Hconv as <-. now exists (strip_md tailpath).
  - replace (category ++ String (path_sep platform)
                          (dirs ++ String (path_sep platform) filename))%string
      with ((category ++ String (path_sep platform) dirs)
            ++ String (path_sep platform) filename)%string in *
      by (now rewrite append_assoc).
    rewrite (convertToMCP_file _ _ _ _ _ _ _ Hf) in Hconv.
    destruct (String.eqb filename EmptyString); [discriminate|].
    cbv zeta in Hconv. rewrite (split_hd_sep_free _ _ _ Hcat) in Hconv.
    injection Hconv as <-. now exists (strip_md filename).
Qed.

(** X18: converter and server agree on the category.  For a document
    converted from a file below the directory [category] (not empty, free
    of slashes and backslashes), on either platform: its only tag is
    [category], the server derives the same [category] from
    [metadata.file] for search entries and listings, and the id starts with
    the namespace, so that the locator shown by search is [primevue://],
    the lower-cased category, a slash and the document name. *)
Theorem server_category_is_converter_category :
  forall (platform : Platform)
         (mdPath category tailpath mdBody created_at updated_at : string)
         (doc : PrimeVueDoc),
    category <> EmptyString ->
    NoChar "/" category -> NoChar "092" category ->
    convertToMCP platform mdPath (category ++ String (path_sep platform) tailpath)
                 mdBody created_at updated_at = Return doc ->
    tags doc = [category]
    /\ first_segment doc = category
    /\ category_of doc = category
    /\ (forall query key,
          ResultEntry.category (entry_of query (key, doc)) = category)
    /\ exists name,
         id doc = ("/primevue/" ++ toLowerCase category ++ "/" ++ name)%string
         /\ forall query,
              ResultEntry.uri (entry_of query (id doc, doc))
              = ("primevue://" ++ toLowerCase category ++ "/" ++ name)%string.
Proof.
  intros platform mdPath category tailpath mdBody c u doc Hne Hslash Hback Hconv.
  assert (Hsep : NoChar (path_sep platform) category)
    by (destruct (path_sep_cases platform) as [-> | ->]; assumption).
  destruct (convertToMCP_in_category _ _ _ _ _ _ _ _ Hsep Hconv) as [name ->].
  assert (Hseg : first_segment
                   {| schema := "1.0";
                      id := "/primevue/" ++ toLowerCase category ++ "/" ++ name;
                      title := replaceAll "-" " " name;
                      tags := [category];
                      content := {| type := "text/markdown"; value := trim mdBody |};
                      metadata :=
                        {| source := "https://primevue.org";
                           file := replaceAll "092" "/"
                                     (category ++ String (path_sep platform) tailpath);
                           created := c;
                           updated := u |} |} = category).
  { unfold first_segment. cbn [metadata file].
    rewrite replaceAll_app, (replaceAll_NoChar _ _ _ Hback).
    cbn [replaceAll].
    replace (if Ascii.eqb (path_sep platform) "092" then "/"%char
             else path_sep platform) with "/"%char
      by (now destruct platform).
    now apply split_hd_sep_free. }
  assert (Hcat : forall d, first_segment d = category -> category_of d = category).
  { intros d Hd. destruct (category_of_cases d) as [_ H].
    rewrite H; [exact Hd | congruence]. }
  repeat split.
  - exact Hseg.
  - now apply Hcat.
  - intros query key. cbn [entry_of result_entry ResultEntry.category snd].
    now apply Hcat.
  - exists name. split; [reflexivity|]. intros query.
    cbn [entry_of result_entry ResultEntry.uri fst id].
    now rewrite replace_namespace.
Qed.

Lemma NoChar_components :
  NoChar "/" "Components" /\ NoChar "092" "Components".
Proof.
  split; unfold NoChar; simpl; intros H;
    repeat (destruct H as [H|H]; [discriminate|]); exact H.
Qed.

Lemma server_category_is_converter_category_witness :
  "Components" <> EmptyString
  /\ NoChar "/" "Components" /\ NoChar "092" "Components"
  /\ (exists doc,
        convertToMCP win32 "C:\site\markdown\Components\Data\data-table.md"
                     ("Components" ++ String (path_sep win32) "Data\data-table.md")
                     "# DataTable" "t0" "t1" = Return doc
        /\ tags doc = ["Components"]
        /\ first_segment doc = "Components"
        /\ category_of doc = "Components"
        /\ (forall query key,
              ResultEntry.category (entry_of query (key, doc)) = "Components")
        /\ exists name,
             id doc = ("/primevue/" ++ toLowerCase "Components" ++ "/" ++ name)%string
             /\ forall query,
                  ResultEntry.uri (entry_of query (id doc, doc))
                  = ("primevue://" ++ toLowerCase "Components" ++ "/" ++ name)%string).
Proof.
  assert (H0 : "Components" <> EmptyString) by discriminate.
  destruct NoChar_components as [H1 H2].
  split; [exact H0|]. split; [exact H1|]. split; [exact H2|].
  eexists. split; [reflexivity|].
  apply (server_category_is_converter_category win32
           "C:\site\markdown\Components\Data\data-table.md" "Components"
           "Data\data-table.md" "# DataTable" "t0" "t1" _ H0 H1 H2).
  reflexivity.
Defined.

(** X19: the key lookup of [get_component_api] is what reaches converted
    components by their file name.  A document converted from a file in a
    directory that spells [components] in any case lies under the key
    [/primevue/components/] plus its name; in a store that holds it there,
    a component argument whose lower case is that name always finds a
    document, even where hyphens in the name keep the title from matching,
    and the reply is that document's API reference. *)
Theorem converted_component_is_found_by_file_name :
  forall (platform : Platform)
         (mdPath dirs filename mdBody created_at updated_at : string)
         (doc : PrimeVueDoc) (docs : DocStore) (component : string),
    NoChar (path_sep platform) filename ->
    convertToMCP platform mdPath (dirs ++ String (path_sep platform) filename)
                 mdBody created_at updated_at = Return doc ->
    toLowerCase (hd EmptyString (split (path_sep platform) dirs)) = "components" ->
    toLowerCase component = strip_md filename ->
    Map_get docs (id doc) = Some doc ->
    id doc = ("/primevue/components/" ++ strip_md filename)%string
    /\ exists found,
         lookup_component docs component = Some found
         /\ (found = doc \/ toLowerCase (title found) = toLowerCase component)
         /\ forall localeCompare,
              get_component_api localeCompare docs component
              = Return (Tool.reply (api_reference found)).
Proof.
  intros platform mdPath dirs filename mdBody c u doc docs component
         Hf Hconv Hcat Hname Hstored.
  rewrite (convertToMCP_file _ _ _ _ _ _ _ Hf) in Hconv.
  destruct (String.eqb filename EmptyString); [discriminate|].
  cbv zeta in Hconv. rewrite Hcat in Hconv.
  assert (Hid : id doc = ("/primevue/components/" ++ strip_md filename)%string)
    by (injection Hconv as <-; reflexivity).
  split; [exact Hid|].
  assert (Hfound : exists found,
            lookup_component docs component = Some found
            /\ (found = doc \/ toLowerCase (title found) = toLowerCase component)).
  { unfold lookup_component.
    destruct (find_by_title docs component) as [d|] eqn:E.
    - exists d. split; [reflexivity|]. right.
      now apply find_by_title_In in E as [_ E].
    - exists doc. split; [|now left]. now rewrite Hname, <- Hid. }
  destruct Hfound as (found & Hlook & Hwhich).
  exists found. repeat split; auto.
  intros lc. unfold get_component_api. now rewrite Hlook.
Qed.

Lemma converted_component_is_found_by_file_name_witness :
  NoChar (path_sep posix) "data-table.md"
  /\ toLowerCase (hd EmptyString (split (path_sep posix) "Components/Data"))
     = "components"
  /\ toLowerCase "Data-Table" = strip_md "data-table.md"
  /\ exists doc,
       convertToMCP posix "/site/markdown/Components/Data/data-table.md"
                    ("Components/Data" ++ String (path_sep posix) "data-table.md")
                    "# DataTable" "t0" "t1" = Return doc
       /\ Map_get (loadDocs [Example_corpus.button; doc]) (id doc) = Some doc
       /\ id doc = ("/primevue/components/" ++ strip_md "data-table.md")%string
       /\ exists found,
            lookup_component (loadDocs [Example_corpus.button; doc]) "Data-Table"
            = Some found
            /\ (found = doc
                \/ toLowerCase (title found) = toLowerCase "Data-Table")
            /\ forall localeCompare,
                 get_component_api localeCompare
                   (loadDocs [Example_corpus.button; doc]) "Data-Table"
                 = Return (Tool.reply (api_reference found)).
Proof.
  assert (H1 : NoChar (path_sep posix) "data-table.md").
  { unfold NoChar. simpl. intros H.
    repeat (destruct H as [H|H]; [discriminate|]). exact H. }
  split; [exact H1|]. split; [reflexivity|]. split; [reflexivity|].
  eexists. split; [reflexivity|]. split; [reflexivity|].
  apply (converted_component_is_found_by_file_name posix
           "/site/markdown/Components/Data/data-table.md" "Components/Data"
           "data-table.md" "# DataTable" "t0" "t1" _ _ "Data-Table" H1);
    reflexivity.
Defined.

(** ** Order of the category listing *)

Lemma loop_keys_order (docs : DocStore) :
  forall m : JsMap (list string),
    map fst (categories_loop None docs m)
    = map fst m
      ++ filter (fun k => negb (existsb (String.eqb k) (map fst m)))
                (keep_first (map (fun kd => category_of (snd kd)) docs)).
Proof.
  induction docs as [|[key doc] docs IH]; intros m.
  - simpl. now rewrite app_nil_r.
  - rewrite categories_loop_cons by reflexivity.
    cbn [map keep_first filter snd]. rewrite IH. unfold push_title.
    rewrite Map_set_keys. unfold Map_has.
    destruct (Map_get m (category_of doc)) as [arr|] eqn:Eget.
    + assert (Hin : existsb (String.eqb (category_of doc)) (map fst m) = true).
      { apply existsb_exists. exists (category_of doc).
        split; [|apply String.eqb_refl].
        apply Map_get_In, (in_map fst) in Eget. exact Eget. }
      rewrite Hin. cbn [negb]. f_equal. symmetry. apply filter_absorb.
      intros k Hk. apply negb_true_iff. apply negb_true_iff in Hk.
      destruct (String.eqb_spec k (category_of doc)) as [->|];
        [congruence | reflexivity].
    + assert (Hout : existsb (String.eqb (category_of doc)) (map fst m) = false).
      { apply not_true_is_false. intros H. apply existsb_exists in H
          as (k & Hk & Heq). apply String.eqb_eq in Heq. subst k.
        apply Map_get_None in Eget. contradiction. }
      rewrite Hout. cbn [negb]. rewrite <- app_assoc. cbn [app]. do 2 f_equal.
      rewrite <- filter_andb. apply filter_ext. intros k.
      rewrite existsb_app. cbn [existsb]. now rewrite orb_false_r, negb_orb.
Qed.

(** X15: the category listing is not sorted by group name: the groups
    come in the order in which their categories first occur when the
    collection is iterated. *)
Theorem category_groups_in_first_occurrence_order :
  forall docs : DocStore,
    map fst (category_groups docs None)
    = keep_first (map (fun kd => category_of (snd kd)) docs).
Proof.
  intros docs. rewrite category_groups_keys, loop_keys_order.
  cbn [map app existsb negb].
  induction (keep_first _) as [|k l IH]; [reflexivity|].
  cbn [filter]. now rewrite IH.
Qed.
